(** * CDM backend: instruction lowering, frame lowering, register info,
      and the LSP source-manager utilities.

    A shallow embedding of
      - llvm/lib/Target/CDM/CDMMCInstLower.cpp   (module [MCInstLower]),
      - CDMFrameLowering.h                        (module [FrameLowering]),
      - CDMRegisterInfo.h                         (module [RegisterInfo]),
      - mlir SourceMgrUtils.cpp                   (module [SourceMgrUtils]),
    with the properties the specification states about them. *)

From Stdlib Require Import ZArith List String Ascii Bool Lia.
Import ListNotations.

Local Open Scope string_scope.
Local Open Scope list_scope.
Local Open Scope Z_scope.

(* ================================================================= *)
(** ** Outcomes of the C++ code *)

(** A C++ function either returns, or the process dies in
    [llvm_unreachable], or an [assert] fails, or it leaves the abstract
    machine (an out-of-bounds read). *)
Inductive outcome (A : Type) : Type :=
| Ret (a : A)
| Unreachable (msg : string)
| AssertionFailed (msg : string)
| UndefinedBehaviour.

Arguments Ret {A} a.
Arguments Unreachable {A} msg.
Arguments AssertionFailed {A} msg.
Arguments UndefinedBehaviour {A}.

Definition bind {A B : Type} (c : outcome A) (k : A -> outcome B) : outcome B :=
  match c with
  | Ret a => k a
  | Unreachable m => Unreachable m
  | AssertionFailed m => AssertionFailed m
  | UndefinedBehaviour => UndefinedBehaviour
  end.

Notation "x <- c ;; k" := (bind c (fun x => k))
  (at level 61, c at next level, right associativity).
Notation "' pat <- c ;; k" := (bind c (fun x => match x with pat => k end))
  (at level 61, pat pattern, c at next level, right associativity).

(** [fatal c] holds when [c] did not return. *)
Definition fatal {A : Type} (c : outcome A) : bool :=
  match c with
  | Ret _ => false
  | _ => true
  end.

(* ================================================================= *)
(** ** Machine integers *)

(** Conversion to [unsigned int] (32 bits): reduction modulo 2^32. *)
Definition unsigned_int (z : Z) : Z := z mod 2 ^ 32.

(* ================================================================= *)
(** ** Machine operands and machine instructions *)

Definition GlobalValue := string.
Definition MCSymbol := string.
(** A machine basic block, as an operand refers to it: its number. *)
Definition MBBRef := nat.

(** Modelled from the spec: [MachineOperand] is declared in LLVM's code
    generator, not in the target.  The kinds are the ones of the data model
    (Register, Immediate, FrameIndex(slot, offset), BasicBlockRef,
    GlobalSymbolRef(symbol, offset), RegisterMask) together with the two
    kinds the lowerer names in its disabled cases (block address, jump
    table index).  Registers are numbers, immediates and offsets are
    [int64_t]. *)
Inductive MachineOperand : Type :=
| MO_Register (Reg : Z)
| MO_Immediate (Imm : Z)
| MO_MachineBasicBlock (MBB : MBBRef)
| MO_FrameIndex (Index : Z) (Offset : Z)
| MO_JumpTableIndex (Index : Z)
| MO_GlobalAddress (GV : GlobalValue) (Offset : Z)
| MO_BlockAddress (BA : string) (Offset : Z)
| MO_RegisterMask (Mask : list Z).

Record MachineInstr : Type := mkMachineInstr {
  MI_Opcode : Z;
  MI_Operands : list MachineOperand
}.

(* ================================================================= *)
(** ** The MC layer: expressions, operands, instructions *)

Inductive VariantKind : Type := VK_None.

Inductive MCExpr : Type :=
| MCSymbolRefExpr (Symbol : MCSymbol) (Kind : VariantKind)
| MCConstantExpr (Value : Z)
| MCBinaryExpr_Add (LHS RHS : MCExpr).

(** Modelled from the spec: the MC classes are declared in LLVM's MC
    layer.  An emittable operand is a register, an immediate or "a symbol
    expression (symbol, optional integer addend)"; [MCOperand()] is the
    invalid operand and [isValid] tells it apart. *)
Inductive MCOperand : Type :=
| MCOperand_Invalid
| MCOperand_Reg (Reg : Z)
| MCOperand_Imm (Val : Z)
| MCOperand_Expr (Val : MCExpr).

Definition createReg (Reg : Z) : MCOperand := MCOperand_Reg Reg.
Definition createImm (Val : Z) : MCOperand := MCOperand_Imm Val.
Definition createExpr (Val : MCExpr) : MCOperand := MCOperand_Expr Val.

Definition isValid (Op : MCOperand) : bool :=
  match Op with
  | MCOperand_Invalid => false
  | _ => true
  end.

Record MCInst : Type := mkMCInst {
  Opcode : Z;
  Operands : list MCOperand
}.

(** An [MCInst] that has no operand yet, as [Lower] is handed one; its
    opcode is overwritten by [Lower]. *)
Definition MCInst_empty : MCInst := mkMCInst 0 [].

Definition setOpcode (I : MCInst) (Op : Z) : MCInst :=
  mkMCInst Op (Operands I).

Definition addOperand (I : MCInst) (Op : MCOperand) : MCInst :=
  mkMCInst (Opcode I) (Operands I ++ [Op]).

(* ================================================================= *)
(** ** CDMMCInstLower *)

Module MCInstLower.

Section Lowering.

(** The two symbol tables the lowerer consults: [AsmPrinter.getSymbol]
    for globals and [MachineBasicBlock::getSymbol] for block labels. *)
Variable AsmPrinter_getSymbol : GlobalValue -> MCSymbol.
Variable MBB_getSymbol : MBBRef -> MCSymbol.

(** [LowerSymbolOperand(MO, Offset)].  [Offset] is an [unsigned int]
    parameter: the argument is converted on entry and [Offset +=
    MO.getOffset()] wraps modulo 2^32.  [assert(Offset > 0)] is kept as
    the code has it, inside [if (Offset)]. *)
Definition LowerSymbolOperand (MO : MachineOperand) (Offset : Z)
  : outcome MCOperand :=
  let Kind := VK_None in
  let Offset := unsigned_int Offset in
  '(Symbol, Offset) <-
     match MO with
     | MO_GlobalAddress GV off =>
         Ret (AsmPrinter_getSymbol GV, unsigned_int (Offset + off))
     | MO_MachineBasicBlock B =>
         Ret (MBB_getSymbol B, Offset)
     | _ => Unreachable "<unknown operand type>"
     end ;;
  let Expr := MCSymbolRefExpr Symbol Kind in
  if Offset =? 0 then Ret (createExpr Expr)
  else
    if 0 <? Offset
    then Ret (createExpr (MCBinaryExpr_Add Expr (MCConstantExpr Offset)))
    else AssertionFailed "Offset > 0".

(** [LowerOperand(MO, offset)]. *)
Definition LowerOperand (MO : MachineOperand) (offset : Z)
  : outcome MCOperand :=
  match MO with
  | MO_Register Reg => Ret (createReg Reg)
  | MO_Immediate Imm => Ret (createImm Imm)
  | MO_RegisterMask _ => Ret MCOperand_Invalid
  | MO_MachineBasicBlock _
  | MO_GlobalAddress _ _ => LowerSymbolOperand MO offset
  | _ => Unreachable "Unknown operand type"
  end.

(** The loop of [Lower] over the operands [i .. e) of the instruction;
    [LowerOperand] is called with its default offset 0. *)
Fixpoint Lower_loop (ops : list MachineOperand) (OutMI : MCInst)
  : outcome MCInst :=
  match ops with
  | [] => Ret OutMI
  | MO :: rest =>
      MCOp <- LowerOperand MO 0 ;;
      Lower_loop rest (if isValid MCOp then addOperand OutMI MCOp else OutMI)
  end.

(** [Lower(MI, OutMI)]: [OutMI] is updated in place, so it is an input
    as well as the result. *)
Definition Lower (MI : MachineInstr) (OutMI : MCInst) : outcome MCInst :=
  let OutMI := setOpcode OutMI (MI_Opcode MI) in
  Lower_loop (MI_Operands MI) OutMI.

(** *** Vocabulary of the statements *)

(** The operand kinds [LowerOperand] has a case for. *)
Definition handled (MO : MachineOperand) : bool :=
  match MO with
  | MO_Register _ | MO_Immediate _ | MO_RegisterMask _
  | MO_MachineBasicBlock _ | MO_GlobalAddress _ _ => true
  | _ => false
  end.

Definition isRegMask (MO : MachineOperand) : bool :=
  match MO with
  | MO_RegisterMask _ => true
  | _ => false
  end.

Definition isFI (MO : MachineOperand) : bool :=
  match MO with
  | MO_FrameIndex _ _ => true
  | _ => false
  end.

(** A symbol expression: the bare symbol, or [symbol + addend]. *)
Definition symbol_expr (Symbol : MCSymbol) (addend : Z) : MCExpr :=
  if addend =? 0 then MCSymbolRefExpr Symbol VK_None
  else MCBinaryExpr_Add (MCSymbolRefExpr Symbol VK_None)
                        (MCConstantExpr addend).

(** The valid operands the loop of [Lower] appends for [ops]. *)
Fixpoint lowered_operands (ops : list MachineOperand)
  : outcome (list MCOperand) :=
  match ops with
  | [] => Ret []
  | MO :: rest =>
      MCOp <- LowerOperand MO 0 ;;
      tl <- lowered_operands rest ;;
      Ret (if isValid MCOp then MCOp :: tl else tl)
  end.

(** A valid operand produced from [MO] by the lowerer called with
    offset 0: what each handled kind other than the register mask
    becomes. *)
Definition translated (MO : MachineOperand) (MCOp : MCOperand) : Prop :=
  match MO with
  | MO_Register Reg => MCOp = createReg Reg
  | MO_Immediate Imm => MCOp = createImm Imm
  | MO_MachineBasicBlock B =>
      MCOp = createExpr (MCSymbolRefExpr (MBB_getSymbol B) VK_None)
  | MO_GlobalAddress GV off =>
      MCOp = createExpr (symbol_expr (AsmPrinter_getSymbol GV)
                                     (unsigned_int off))
  | _ => False
  end.

(** *** Arithmetic of [unsigned int] *)

Lemma unsigned_int_range (z : Z) : 0 <= unsigned_int z < 2 ^ 32.
Proof. unfold unsigned_int. apply Z.mod_pos_bound. lia. Qed.

Lemma unsigned_int_small (z : Z) :
  0 <= z < 2 ^ 32 -> unsigned_int z = z.
Proof. intros Hz. unfold unsigned_int. now apply Z.mod_small. Qed.

(** *** What [LowerSymbolOperand] computes *)

(** The tail of [LowerSymbolOperand], after the switch: it never reaches
    the failing branch of the assertion on a 32-bit unsigned value. *)
Lemma symbol_tail (Symbol : MCSymbol) (a : Z) :
  0 <= a ->
  (if a =? 0 then Ret (createExpr (MCSymbolRefExpr Symbol VK_None))
   else if 0 <? a
        then Ret (createExpr (MCBinaryExpr_Add
                                (MCSymbolRefExpr Symbol VK_None)
                                (MCConstantExpr a)))
        else AssertionFailed "Offset > 0")
  = Ret (createExpr (symbol_expr Symbol a)).
Proof.
  intros Ha. unfold symbol_expr.
  destruct (Z.eqb_spec a 0) as [->|Hne]; [reflexivity|].
  destruct (Z.ltb_spec 0 a); [reflexivity|lia].
Qed.

Lemma LowerSymbolOperand_GlobalAddress GV off Offset :
  LowerSymbolOperand (MO_GlobalAddress GV off) Offset =
  Ret (createExpr (symbol_expr (AsmPrinter_getSymbol GV)
                     (unsigned_int (unsigned_int Offset + off)))).
Proof.
  unfold LowerSymbolOperand; cbn [bind].
  apply symbol_tail, unsigned_int_range.
Qed.

Lemma LowerSymbolOperand_MachineBasicBlock B Offset :
  LowerSymbolOperand (MO_MachineBasicBlock B) Offset =
  Ret (createExpr (symbol_expr (MBB_getSymbol B) (unsigned_int Offset))).
Proof.
  unfold LowerSymbolOperand; cbn [bind].
  apply symbol_tail, unsigned_int_range.
Qed.

Lemma LowerOperand_translated MO MCOp :
  LowerOperand MO 0 = Ret MCOp ->
  isValid MCOp = true ->
  translated MO MCOp.
Proof.
  destruct MO; cbn [LowerOperand translated]; intros H Hv;
    try discriminate.
  - now inversion H.
  - now inversion H.
  - rewrite LowerSymbolOperand_MachineBasicBlock in H. now inversion H.
  - rewrite LowerSymbolOperand_GlobalAddress in H. now inversion H.
  - inversion H; subst. discriminate.
Qed.

Lemma LowerOperand_handled MO offset :
  handled MO = true -> exists MCOp, LowerOperand MO offset = Ret MCOp.
Proof.
  destruct MO; cbn [handled LowerOperand]; intros H; try discriminate;
    eauto.
  - rewrite LowerSymbolOperand_MachineBasicBlock; eauto.
  - rewrite LowerSymbolOperand_GlobalAddress; eauto.
Qed.

Lemma LowerOperand_unhandled MO offset :
  handled MO = false ->
  LowerOperand MO offset = Unreachable "Unknown operand type".
Proof. destruct MO; cbn; intros H; try discriminate; reflexivity. Qed.

Lemma LowerOperand_RegisterMask MO MCOp offset :
  LowerOperand MO offset = Ret MCOp ->
  isValid MCOp = negb (isRegMask MO).
Proof.
  destruct MO; cbn [LowerOperand isRegMask negb]; intros H;
    try discriminate; try (now inversion H).
  - rewrite LowerSymbolOperand_MachineBasicBlock in H. now inversion H.
  - rewrite LowerSymbolOperand_GlobalAddress in H. now inversion H.
Qed.

(** *** The loop of [Lower] *)

Lemma Lower_loop_lowered ops OutMI :
  Lower_loop ops OutMI =
  (tl <- lowered_operands ops ;;
   Ret (mkMCInst (Opcode OutMI) (Operands OutMI ++ tl))).
Proof.
  revert OutMI; induction ops as [|MO rest IH]; intros OutMI; cbn.
  - rewrite app_nil_r. now destruct OutMI.
  - destruct (LowerOperand MO 0) as [MCOp| | |]; cbn; try reflexivity.
    rewrite IH.
    destruct (lowered_operands rest) as [tl| | |]; cbn; try reflexivity.
    destruct (isValid MCOp); cbn; [|reflexivity].
    now rewrite <- app_assoc.
Qed.

Lemma lowered_operands_app l1 l2 :
  lowered_operands (l1 ++ l2) =
  (a <- lowered_operands l1 ;; b <- lowered_operands l2 ;; Ret (a ++ b)).
Proof.
  induction l1 as [|MO rest IH]; cbn.
  - now destruct (lowered_operands l2).
  - destruct (LowerOperand MO 0) as [MCOp| | |]; cbn; try reflexivity.
    rewrite IH.
    destruct (lowered_operands rest) as [a| | |]; cbn; try reflexivity.
    destruct (lowered_operands l2) as [b| | |]; cbn; try reflexivity.
    now destruct (isValid MCOp).
Qed.

Lemma lowered_operands_Forall2 ops tl :
  lowered_operands ops = Ret tl ->
  exists MCOps,
    Forall2 (fun MO MCOp => LowerOperand MO 0 = Ret MCOp) ops MCOps /\
    tl = filter isValid MCOps.
Proof.
  revert tl; induction ops as [|MO rest IH]; intros tl; cbn.
  - intros H; inversion H. exists []. split; [constructor|reflexivity].
  - destruct (LowerOperand MO 0) as [MCOp| | |] eqn:E; cbn;
      try discriminate.
    destruct (lowered_operands rest) as [tl'| | |]; cbn; try discriminate.
    intros H; inversion H; subst; clear H.
    destruct (IH tl' eq_refl) as (MCOps & HF & ->).
    exists (MCOp :: MCOps). split; [now constructor|].
    cbn. now destruct (isValid MCOp).
Qed.

Lemma lowered_operands_handled ops :
  forallb handled ops = true -> exists tl, lowered_operands ops = Ret tl.
Proof.
  induction ops as [|MO rest IH]; cbn; [eauto|].
  intros H; apply andb_prop in H as [HMO Hrest].
  destruct (LowerOperand_handled MO 0 HMO) as [MCOp ->].
  destruct (IH Hrest) as [tl ->]. cbn. eauto.
Qed.

Lemma fatal_lowered_operands ops :
  fatal (lowered_operands ops) = existsb (fun MO => negb (handled MO)) ops.
Proof.
  induction ops as [|MO rest IH]; cbn; [reflexivity|].
  destruct (handled MO) eqn:HMO; cbn.
  - destruct (LowerOperand_handled MO 0 HMO) as [MCOp ->]. cbn.
    rewrite <- IH. now destruct (lowered_operands rest).
  - now rewrite (LowerOperand_unhandled MO 0 HMO).
Qed.

Lemma lowered_operands_filter ops tl :
  lowered_operands ops = Ret tl ->
  Forall2 (fun MO MCOp => LowerOperand MO 0 = Ret MCOp /\ translated MO MCOp)
          (filter (fun MO => negb (isRegMask MO)) ops) tl.
Proof.
  revert tl; induction ops as [|MO rest IH]; intros tl; cbn.
  - intros H; inversion H. constructor.
  - destruct (LowerOperand MO 0) as [MCOp| | |] eqn:E; cbn;
      try discriminate.
    destruct (lowered_operands rest) as [tl'| | |]; cbn; try discriminate.
    intros H; inversion H; subst; clear H.
    rewrite <- (LowerOperand_RegisterMask MO MCOp 0 E).
    destruct (isValid MCOp) eqn:Hv; [|now apply IH].
    constructor; [|now apply IH].
    split; [exact E|now apply LowerOperand_translated].
Qed.

(** *** Properties of the lowerer *)

(** C1, at the failing input.  A global-address operand with recorded
    offset -1, lowered with the default offset 0, does not take a fatal
    path: the 32-bit unsigned accumulator holds 4294967295, the assertion
    [Offset > 0] passes and the operand becomes the expression
    [symbol + 4294967295].  More generally symbol resolution of a global
    address never fails, whatever its recorded offset. *)
Theorem LowerOperand_negative_addend_returns (GV : GlobalValue) :
  LowerOperand (MO_GlobalAddress GV (-1)) 0 =
    Ret (createExpr
           (MCBinaryExpr_Add (MCSymbolRefExpr (AsmPrinter_getSymbol GV) VK_None)
                             (MCConstantExpr 4294967295)))
  /\ (forall off Offset,
        fatal (LowerSymbolOperand (MO_GlobalAddress GV off) Offset) = false).
Proof.
  split.
  - cbn [LowerOperand]. now rewrite LowerSymbolOperand_GlobalAddress.
  - intros off Offset. now rewrite LowerSymbolOperand_GlobalAddress.
Qed.

(** C3, amended.  For every machine instruction whose operands are all of
    a kind the lowerer handles (Register, Immediate, RegisterMask,
    MachineBasicBlock, GlobalAddress), [Lower] returns an instruction with
    the opcode of the input; each operand is lowered on its own by
    [LowerOperand] with offset 0, in order, and the valid results are
    appended in that order to the operands [OutMI] already had.  A
    Register becomes a register operand, an Immediate an immediate
    operand. *)
Theorem Lower_same_opcode_operands_in_order (MI : MachineInstr) (OutMI : MCInst) :
  forallb handled (MI_Operands MI) = true ->
  exists out MCOps,
    Lower MI OutMI = Ret out /\
    Opcode out = MI_Opcode MI /\
    Forall2 (fun MO MCOp => LowerOperand MO 0 = Ret MCOp)
            (MI_Operands MI) MCOps /\
    Operands out = Operands OutMI ++ filter isValid MCOps /\
    (forall Reg offset,
        LowerOperand (MO_Register Reg) offset = Ret (createReg Reg)) /\
    (forall Imm offset,
        LowerOperand (MO_Immediate Imm) offset = Ret (createImm Imm)).
Proof.
  intros Hh. unfold Lower. rewrite Lower_loop_lowered.
  destruct (lowered_operands_handled _ Hh) as [tl Htl].
  destruct (lowered_operands_Forall2 _ _ Htl) as (MCOps & HF & ->).
  rewrite Htl. cbn [bind setOpcode Opcode Operands].
  eexists; exists MCOps. repeat split; auto.
Qed.

(** C4.  Whenever [Lower] returns, and it does for every instruction
    whose operands are all of a handled kind, the operands it appended are
    exactly the lowerings of the operands of [MI] that are not register
    masks, one for one and in the original order: registers, immediates
    and symbol expressions, all valid.  Nothing stands for a register
    mask, and [MI] had no frame-index operand. *)
Theorem Lower_drops_RegisterMask (MI : MachineInstr) (OutMI : MCInst) :
  (forallb handled (MI_Operands MI) = true ->
     exists out, Lower MI OutMI = Ret out) /\
  (forall out,
     Lower MI OutMI = Ret out ->
     exists MCOps,
       Operands out = Operands OutMI ++ MCOps /\
       Forall2 (fun MO MCOp =>
                  LowerOperand MO 0 = Ret MCOp /\ translated MO MCOp)
               (filter (fun MO => negb (isRegMask MO)) (MI_Operands MI))
               MCOps /\
       Forall (fun MCOp => isValid MCOp = true) MCOps /\
       existsb isFI (MI_Operands MI) = false).
Proof.
  unfold Lower. rewrite Lower_loop_lowered. split.
  - intros Hh. destruct (lowered_operands_handled _ Hh) as [tl ->].
    cbn [bind]. eauto.
  - intros out.
    destruct (lowered_operands (MI_Operands MI)) as [tl| | |] eqn:Htl;
      cbn [bind]; try discriminate.
    intros H; inversion H; subst; clear H. cbn [Operands setOpcode].
    exists tl. split; [reflexivity|].
    split; [now apply lowered_operands_filter|]. split.
    + destruct (lowered_operands_Forall2 _ _ Htl) as (MCOps & _ & ->).
      apply Forall_forall. intros x Hx. now apply filter_In in Hx.
    + pose proof (fatal_lowered_operands (MI_Operands MI)) as Hf.
      rewrite Htl in Hf. cbn [fatal] in Hf.
      destruct (existsb isFI (MI_Operands MI)) eqn:E; [|reflexivity].
      apply existsb_exists in E as (MO & Hin & HMO).
      assert (existsb (fun MO => negb (handled MO)) (MI_Operands MI) = true)
        as Habs.
      { apply existsb_exists. exists MO. split; [exact Hin|].
        now destruct MO. }
      congruence.
Qed.

(** C7.  An operand is fatal for [LowerOperand] exactly when its kind is
    none of Register, Immediate, RegisterMask, MachineBasicBlock and
    GlobalAddress: for such a kind it ends in [llvm_unreachable] (and so
    would [LowerSymbolOperand]), for the five kinds it returns an operand.
    [Lower] is fatal exactly when the instruction has such an operand. *)
Theorem LowerOperand_fatal_iff_unhandled (MO : MachineOperand) (offset : Z) :
  fatal (LowerOperand MO offset) = negb (handled MO) /\
  (handled MO = false ->
     LowerOperand MO offset = Unreachable "Unknown operand type" /\
     LowerSymbolOperand MO offset = Unreachable "<unknown operand type>") /\
  (handled MO = true -> exists MCOp, LowerOperand MO offset = Ret MCOp) /\
  (forall MI OutMI,
     fatal (Lower MI OutMI) =
     existsb (fun MO => negb (handled MO)) (MI_Operands MI)).
Proof.
  split; [|split; [|split]].
  - destruct (handled MO) eqn:H.
    + now destruct (LowerOperand_handled MO offset H) as [MCOp ->].
    + now rewrite LowerOperand_unhandled.
  - intros H. split; [now apply LowerOperand_unhandled|].
    destruct MO; try discriminate; reflexivity.
  - apply LowerOperand_handled.
  - intros MI OutMI. unfold Lower. rewrite Lower_loop_lowered.
    rewrite <- fatal_lowered_operands.
    now destruct (lowered_operands (MI_Operands MI)).
Qed.

(** C9.  A machine-basic-block operand is lowered by [LowerOperand] with
    offset 0 to the bare symbol of the block's label; symbol resolution
    leaves the incoming offset of a block operand as it is and adds the
    recorded offset only for a global address; and in the result of
    [Lower], where every operand is lowered with offset 0, the operand
    standing for a block operand is that bare symbol. *)
Theorem LowerOperand_MachineBasicBlock_bare (B : MBBRef) :
  LowerOperand (MO_MachineBasicBlock B) 0 =
    Ret (createExpr (MCSymbolRefExpr (MBB_getSymbol B) VK_None)) /\
  (forall Offset,
     LowerSymbolOperand (MO_MachineBasicBlock B) Offset =
     Ret (createExpr (symbol_expr (MBB_getSymbol B) (unsigned_int Offset)))) /\
  (forall GV off Offset,
     LowerSymbolOperand (MO_GlobalAddress GV off) Offset =
     Ret (createExpr (symbol_expr (AsmPrinter_getSymbol GV)
                        (unsigned_int (unsigned_int Offset + off))))) /\
  (forall opc pre post OutMI out,
     Lower (mkMachineInstr opc (pre ++ MO_MachineBasicBlock B :: post)) OutMI
       = Ret out ->
     exists o1 o2,
       lowered_operands pre = Ret o1 /\
       lowered_operands post = Ret o2 /\
       Operands out =
         Operands OutMI ++ o1 ++
         createExpr (MCSymbolRefExpr (MBB_getSymbol B) VK_None) :: o2).
Proof.
  split; [|split; [|split]].
  - cbn [LowerOperand]. now rewrite LowerSymbolOperand_MachineBasicBlock.
  - apply LowerSymbolOperand_MachineBasicBlock.
  - apply LowerSymbolOperand_GlobalAddress.
  - intros opc pre post OutMI out. unfold Lower.
    rewrite Lower_loop_lowered. cbn [MI_Operands].
    rewrite lowered_operands_app.
    destruct (lowered_operands pre) as [o1| | |]; cbn [bind];
      try discriminate.
    cbn [lowered_operands LowerOperand].
    rewrite LowerSymbolOperand_MachineBasicBlock. cbn [bind].
    destruct (lowered_operands post) as [o2| | |]; cbn [bind];
      try discriminate.
    intros H; inversion H; subst; clear H.
    exists o1, o2. repeat split; reflexivity.
Qed.

(** C6, amended.  A global-address operand with recorded offset 0 is
    lowered to the bare symbol, and with a recorded offset [n] such that
    [0 < n < 2^32] to the sum [symbol + n]. *)
Theorem LowerOperand_GlobalAddress_addend (GV : GlobalValue) (n : Z) :
  (n = 0 ->
     LowerOperand (MO_GlobalAddress GV n) 0 =
     Ret (createExpr (MCSymbolRefExpr (AsmPrinter_getSymbol GV) VK_None))) /\
  (0 < n < 2 ^ 32 ->
     LowerOperand (MO_GlobalAddress GV n) 0 =
     Ret (createExpr
            (MCBinaryExpr_Add (MCSymbolRefExpr (AsmPrinter_getSymbol GV) VK_None)
                              (MCConstantExpr n)))).
Proof.
  cbn [LowerOperand]. rewrite LowerSymbolOperand_GlobalAddress.
  change (unsigned_int 0) with 0. rewrite Z.add_0_l.
  split.
  - intros ->. reflexivity.
  - intros Hn. rewrite unsigned_int_small by lia.
    unfold symbol_expr. destruct (Z.eqb_spec n 0); [lia|reflexivity].
Qed.

(** *** Further properties of the lowerer *)

(** The shape of a symbol expression the lowerer builds: a bare symbol
    reference, or the sum of one and a constant of the 32-bit unsigned
    range other than 0. *)
Definition symbol_expression (e : MCExpr) : Prop :=
  match e with
  | MCSymbolRefExpr _ VK_None => True
  | MCBinaryExpr_Add (MCSymbolRefExpr _ VK_None) (MCConstantExpr a) =>
      0 < a < 2 ^ 32
  | _ => False
  end.

Lemma symbol_expr_shape (Symbol : MCSymbol) (a : Z) :
  0 <= a < 2 ^ 32 -> symbol_expression (symbol_expr Symbol a).
Proof.
  intros Ha. unfold symbol_expr.
  destruct (Z.eqb_spec a 0); cbn; [exact I|lia].
Qed.

Lemma unsigned_int_add_multiple (z k : Z) :
  unsigned_int (z + k * 2 ^ 32) = unsigned_int z.
Proof. unfold unsigned_int. apply Z.mod_add. lia. Qed.

Lemma Lower_as_lowered MI OutMI :
  Lower MI OutMI =
  (new <- lowered_operands (MI_Operands MI) ;;
   Ret (mkMCInst (MI_Opcode MI) (Operands OutMI ++ new))).
Proof. unfold Lower. now rewrite Lower_loop_lowered. Qed.

(** Lowering the operands [ops1 ++ ops2] of one instruction is lowering
    [ops1] and then lowering [ops2] into the instruction obtained: the
    loop of [Lower] carries nothing from one operand to the next but the
    instruction under construction. *)
Theorem Lower_operands_app (opc : Z) (ops1 ops2 : list MachineOperand)
    (OutMI : MCInst) :
  Lower (mkMachineInstr opc (ops1 ++ ops2)) OutMI =
  (out1 <- Lower (mkMachineInstr opc ops1) OutMI ;;
   Lower (mkMachineInstr opc ops2) out1).
Proof.
  rewrite !Lower_as_lowered. cbn [MI_Operands MI_Opcode].
  rewrite lowered_operands_app.
  destruct (lowered_operands ops1) as [o1| | |]; cbn [bind];
    try reflexivity.
  rewrite Lower_as_lowered. cbn [MI_Operands MI_Opcode Operands].
  destruct (lowered_operands ops2) as [o2| | |]; cbn [bind];
    try reflexivity.
  now rewrite app_assoc.
Qed.

(** [Lower] never clears the instruction it writes to: lowering the same
    machine instruction a second time into the result of the first puts
    the lowered operands there twice. *)
Theorem Lower_twice_accumulates (MI : MachineInstr) (OutMI out : MCInst) :
  Lower MI OutMI = Ret out ->
  exists new,
    Operands out = Operands OutMI ++ new /\
    Lower MI out =
      Ret (mkMCInst (MI_Opcode MI) (Operands OutMI ++ new ++ new)).
Proof.
  rewrite !Lower_as_lowered.
  destruct (lowered_operands (MI_Operands MI)) as [new| | |]; cbn [bind];
    try discriminate.
  intros H; inversion H; subst; clear H. cbn [Operands].
  exists new. split; [reflexivity|]. now rewrite <- app_assoc.
Qed.

(** The lowering of an operand depends on the recorded offset of a global
    address, and on the offset passed in, only modulo 2^32. *)
Theorem LowerOperand_offset_mod_2_32 (MO : MachineOperand) (GV : GlobalValue)
    (off Offset k : Z) :
  LowerOperand (MO_GlobalAddress GV (off + k * 2 ^ 32)) Offset =
    LowerOperand (MO_GlobalAddress GV off) Offset /\
  LowerOperand MO (Offset + k * 2 ^ 32) = LowerOperand MO Offset.
Proof.
  split.
  - cbn [LowerOperand]. rewrite !LowerSymbolOperand_GlobalAddress.
    now rewrite Z.add_assoc, unsigned_int_add_multiple.
  - destruct MO; cbn [LowerOperand]; try reflexivity.
    + rewrite !LowerSymbolOperand_MachineBasicBlock.
      now rewrite unsigned_int_add_multiple.
    + rewrite !LowerSymbolOperand_GlobalAddress.
      now rewrite unsigned_int_add_multiple.
Qed.

(** A global address whose recorded offset [off] is negative and above
    [-2^32] is lowered to [symbol + (off + 2^32)]: never to the bare
    symbol, never to a negative addend. *)
Theorem LowerOperand_negative_offset_wraps (GV : GlobalValue) (off : Z) :
  - 2 ^ 32 < off < 0 ->
  LowerOperand (MO_GlobalAddress GV off) 0 =
    Ret (createExpr
           (MCBinaryExpr_Add (MCSymbolRefExpr (AsmPrinter_getSymbol GV) VK_None)
                             (MCConstantExpr (off + 2 ^ 32)))).
Proof.
  intros Hoff. cbn [LowerOperand]. rewrite LowerSymbolOperand_GlobalAddress.
  change (unsigned_int 0) with 0. rewrite Z.add_0_l.
  rewrite <- (unsigned_int_add_multiple off 1), Z.mul_1_l.
  rewrite unsigned_int_small by lia.
  unfold symbol_expr. destruct (Z.eqb_spec (off + 2 ^ 32) 0); [lia|reflexivity].
Qed.

(** What [LowerOperand] can return: the invalid operand only for a
    register mask, a register only for that Register operand, an
    immediate only for that Immediate operand, and otherwise a symbol
    expression, whose addend, if any, lies strictly between 0 and 2^32. *)
Theorem LowerOperand_result_shape (MO : MachineOperand) (offset : Z)
    (MCOp : MCOperand) :
  LowerOperand MO offset = Ret MCOp ->
  match MCOp with
  | MCOperand_Invalid => isRegMask MO = true
  | MCOperand_Reg Reg => MO = MO_Register Reg
  | MCOperand_Imm Imm => MO = MO_Immediate Imm
  | MCOperand_Expr e =>
      symbol_expression e /\
      ((exists B, MO = MO_MachineBasicBlock B) \/
       (exists GV off, MO = MO_GlobalAddress GV off))
  end.
Proof.
  destruct MO; cbn [LowerOperand]; intros H; try discriminate.
  - inversion H. reflexivity.
  - inversion H. reflexivity.
  - rewrite LowerSymbolOperand_MachineBasicBlock in H. inversion H.
    split; [apply symbol_expr_shape, unsigned_int_range|].
    left. eauto.
  - rewrite LowerSymbolOperand_GlobalAddress in H. inversion H.
    split; [apply symbol_expr_shape, unsigned_int_range|].
    right. eauto.
  - inversion H. reflexivity.
Qed.

(** [Lower] has one way to fail: the [llvm_unreachable] of
    [LowerOperand].  The assertion of [LowerSymbolOperand] never fails in
    it, and it reads nothing out of bounds. *)
Theorem Lower_fails_only_unreachable (MI : MachineInstr) (OutMI : MCInst) :
  (exists out, Lower MI OutMI = Ret out) \/
  Lower MI OutMI = Unreachable "Unknown operand type".
Proof.
  rewrite Lower_as_lowered.
  induction (MI_Operands MI) as [|MO rest IH]; cbn [lowered_operands bind].
  - left. eauto.
  - destruct (handled MO) eqn:HMO.
    + destruct (LowerOperand_handled MO 0 HMO) as [MCOp ->]. cbn [bind].
      destruct IH as [[out Hout]|Hfail].
      * destruct (lowered_operands rest) as [tl| | |]; cbn [bind] in *;
          try discriminate.
        left. eauto.
      * destruct (lowered_operands rest) as [tl| | |]; cbn [bind] in *;
          try discriminate.
        right. exact Hfail.
    + rewrite (LowerOperand_unhandled MO 0 HMO). right. reflexivity.
Qed.

End Lowering.

(** *** Concrete instances *)

(** The symbol tables of the examples: a global is printed under its own
    name, block [n] under the label [".LBB"]. *)
Definition example_getSymbol (GV : GlobalValue) : MCSymbol := GV.
Definition example_MBB_getSymbol (B : MBBRef) : MCSymbol := ".LBB".

Definition example_call : MachineInstr :=
  mkMachineInstr 7
    [MO_Register 3; MO_RegisterMask [1; 2]; MO_GlobalAddress "g" 5;
     MO_Immediate 42; MO_MachineBasicBlock 1%nat].

Lemma Lower_same_opcode_operands_in_order_witness :
  exists out MCOps,
    Lower example_getSymbol example_MBB_getSymbol example_call MCInst_empty
      = Ret out /\
    Opcode out = 7 /\
    Forall2 (fun MO MCOp =>
               LowerOperand example_getSymbol example_MBB_getSymbol MO 0
               = Ret MCOp)
            (MI_Operands example_call) MCOps /\
    Operands out = Operands MCInst_empty ++ filter isValid MCOps /\
    (forall Reg offset,
        LowerOperand example_getSymbol example_MBB_getSymbol
          (MO_Register Reg) offset = Ret (createReg Reg)) /\
    (forall Imm offset,
        LowerOperand example_getSymbol example_MBB_getSymbol
          (MO_Immediate Imm) offset = Ret (createImm Imm)).
Proof.
  apply (Lower_same_opcode_operands_in_order
           example_getSymbol example_MBB_getSymbol example_call MCInst_empty).
  reflexivity.
Defined.

(** C3, as stated, fails: an instruction with a frame-index operand is
    not lowered to any instruction, [Lower] ends in [llvm_unreachable]. *)
Lemma Lower_FrameIndex_operand_is_fatal :
  Lower example_getSymbol example_MBB_getSymbol
        (mkMachineInstr 1 [MO_Register 1; MO_FrameIndex 0 0]) MCInst_empty
    = Unreachable "Unknown operand type" /\
  ~ (exists out,
        Lower example_getSymbol example_MBB_getSymbol
              (mkMachineInstr 1 [MO_Register 1; MO_FrameIndex 0 0]) MCInst_empty
          = Ret out /\
        Opcode out = 1).
Proof.
  split; [reflexivity|].
  intros (out & H & _). discriminate H.
Qed.

Lemma Lower_drops_RegisterMask_witness :
  (exists out,
     Lower example_getSymbol example_MBB_getSymbol example_call MCInst_empty
       = Ret out) /\
  (exists MCOps,
     Operands (mkMCInst 7 [createReg 3;
                           createExpr (MCBinaryExpr_Add
                                         (MCSymbolRefExpr "g" VK_None)
                                         (MCConstantExpr 5));
                           createImm 42;
                           createExpr (MCSymbolRefExpr ".LBB" VK_None)])
       = Operands MCInst_empty ++ MCOps /\
     Forall2 (fun MO MCOp =>
                LowerOperand example_getSymbol example_MBB_getSymbol MO 0
                  = Ret MCOp /\
                translated example_getSymbol example_MBB_getSymbol MO MCOp)
             (filter (fun MO => negb (isRegMask MO))
                     (MI_Operands example_call))
             MCOps /\
     Forall (fun MCOp => isValid MCOp = true) MCOps /\
     existsb isFI (MI_Operands example_call) = false).
Proof.
  split.
  - apply (proj1 (Lower_drops_RegisterMask
                    example_getSymbol example_MBB_getSymbol
                    example_call MCInst_empty)).
    reflexivity.
  - apply (proj2 (Lower_drops_RegisterMask
                    example_getSymbol example_MBB_getSymbol
                    example_call MCInst_empty)).
    reflexivity.
Defined.

Lemma LowerOperand_fatal_iff_unhandled_witness :
  (LowerOperand example_getSymbol example_MBB_getSymbol
     (MO_FrameIndex 2 4) 0 = Unreachable "Unknown operand type" /\
   LowerSymbolOperand example_getSymbol example_MBB_getSymbol
     (MO_FrameIndex 2 4) 0 = Unreachable "<unknown operand type>") /\
  (exists MCOp,
     LowerOperand example_getSymbol example_MBB_getSymbol
       (MO_GlobalAddress "g" 5) 0 = Ret MCOp).
Proof.
  split.
  - apply (LowerOperand_fatal_iff_unhandled
             example_getSymbol example_MBB_getSymbol (MO_FrameIndex 2 4) 0).
    reflexivity.
  - apply (LowerOperand_fatal_iff_unhandled
             example_getSymbol example_MBB_getSymbol
             (MO_GlobalAddress "g" 5) 0).
    reflexivity.
Defined.

Lemma LowerOperand_MachineBasicBlock_bare_witness :
  exists o1 o2,
    lowered_operands example_getSymbol example_MBB_getSymbol
      [MO_Register 3; MO_RegisterMask [1; 2]; MO_GlobalAddress "g" 5;
       MO_Immediate 42] = Ret o1 /\
    lowered_operands example_getSymbol example_MBB_getSymbol [] = Ret o2 /\
    Operands (mkMCInst 7 [createReg 3;
                          createExpr (MCBinaryExpr_Add
                                        (MCSymbolRefExpr "g" VK_None)
                                        (MCConstantExpr 5));
                          createImm 42;
                          createExpr (MCSymbolRefExpr ".LBB" VK_None)])
      = Operands MCInst_empty ++ o1 ++
        createExpr (MCSymbolRefExpr (example_MBB_getSymbol 1%nat) VK_None)
        :: o2.
Proof.
  apply (proj2 (proj2 (proj2
           (LowerOperand_MachineBasicBlock_bare
              example_getSymbol example_MBB_getSymbol 1%nat)))
           7
           [MO_Register 3; MO_RegisterMask [1; 2]; MO_GlobalAddress "g" 5;
            MO_Immediate 42]
           [] MCInst_empty).
  reflexivity.
Defined.

Lemma LowerOperand_GlobalAddress_addend_witness :
  LowerOperand example_getSymbol example_MBB_getSymbol
    (MO_GlobalAddress "g" 0) 0
    = Ret (createExpr (MCSymbolRefExpr "g" VK_None)) /\
  LowerOperand example_getSymbol example_MBB_getSymbol
    (MO_GlobalAddress "g" 5) 0
    = Ret (createExpr (MCBinaryExpr_Add (MCSymbolRefExpr "g" VK_None)
                                        (MCConstantExpr 5))).
Proof.
  split.
  - apply (proj1 (LowerOperand_GlobalAddress_addend
                    example_getSymbol example_MBB_getSymbol "g" 0)).
    reflexivity.
  - apply (proj2 (LowerOperand_GlobalAddress_addend
                    example_getSymbol example_MBB_getSymbol "g" 5)).
    split; reflexivity.
Defined.

(** C6, as stated, fails at the positive addend 2^32: the 32-bit
    accumulator wraps to 0 and the result is the bare symbol, not
    [symbol + 4294967296]. *)
Lemma LowerOperand_addend_2_32_is_bare :
  0 < 4294967296 /\
  LowerOperand example_getSymbol example_MBB_getSymbol
    (MO_GlobalAddress "g" 4294967296) 0
    = Ret (createExpr (MCSymbolRefExpr "g" VK_None)) /\
  LowerOperand example_getSymbol example_MBB_getSymbol
    (MO_GlobalAddress "g" 4294967296) 0
    <> Ret (createExpr (MCBinaryExpr_Add (MCSymbolRefExpr "g" VK_None)
                                         (MCConstantExpr 4294967296))).
Proof.
  split; [reflexivity|]. split; [reflexivity|]. discriminate.
Qed.

Lemma Lower_twice_accumulates_witness :
  exists new,
    Operands (mkMCInst 7 [createReg 3; createImm 42])
      = Operands MCInst_empty ++ new /\
    Lower example_getSymbol example_MBB_getSymbol
      (mkMachineInstr 7 [MO_Register 3; MO_RegisterMask [1]; MO_Immediate 42])
      (mkMCInst 7 [createReg 3; createImm 42])
    = Ret (mkMCInst 7 (Operands MCInst_empty ++ new ++ new)).
Proof.
  apply (Lower_twice_accumulates example_getSymbol example_MBB_getSymbol
           (mkMachineInstr 7
              [MO_Register 3; MO_RegisterMask [1]; MO_Immediate 42])
           MCInst_empty).
  reflexivity.
Defined.

Lemma LowerOperand_negative_offset_wraps_witness :
  LowerOperand example_getSymbol example_MBB_getSymbol
    (MO_GlobalAddress "g" (-5)) 0
  = Ret (createExpr (MCBinaryExpr_Add (MCSymbolRefExpr "g" VK_None)
                                      (MCConstantExpr (-5 + 2 ^ 32)))).
Proof.
  apply (LowerOperand_negative_offset_wraps
           example_getSymbol example_MBB_getSymbol "g" (-5)).
  split; reflexivity.
Defined.

Lemma LowerOperand_result_shape_witness :
  symbol_expression
    (MCBinaryExpr_Add (MCSymbolRefExpr "g" VK_None) (MCConstantExpr 5)) /\
  ((exists B, MO_GlobalAddress "g" 5 = MO_MachineBasicBlock B) \/
   (exists GV off, MO_GlobalAddress "g" 5 = MO_GlobalAddress GV off)).
Proof.
  apply (LowerOperand_result_shape example_getSymbol example_MBB_getSymbol
           (MO_GlobalAddress "g" 5) 0
           (createExpr (MCBinaryExpr_Add (MCSymbolRefExpr "g" VK_None)
                                         (MCConstantExpr 5)))).
  reflexivity.
Defined.

End MCInstLower.

(* ================================================================= *)
(** ** Basic blocks *)

(** A basic block owns the sequence of its instructions; an iterator into
    the block is a position in that sequence. *)
Definition MachineBasicBlock := list MachineInstr.
Definition MachineFunction := list MachineBasicBlock.
Definition iterator := nat.

(** [splice l n new] is [l] with the element at position [n] replaced by
    the elements of [new]. *)
Definition splice {A : Type} (l : list A) (n : nat) (new : list A) : list A :=
  firstn n l ++ new ++ skipn (S n) l.

Lemma splice_app {A : Type} (pre : list A) (x : A) (post new : list A) :
  splice (pre ++ x :: post) (List.length pre) new = pre ++ new ++ post.
Proof.
  unfold splice. induction pre as [|a pre IH]; cbn; [reflexivity|].
  f_equal. exact IH.
Qed.

(* ================================================================= *)
(** ** CDMFrameLowering *)

Module FrameLowering.

(** Modelled from the spec: [MachineBasicBlock::erase] belongs to LLVM's
    code generator, not to the target.  The placeholder is "simply deleted with no
    replacement": the instruction at the iterator is unlinked and the
    iterator to its successor, now at the same position, is returned.
    Erasing at the end iterator is outside the contract. *)
Definition erase (MBB : MachineBasicBlock) (I : iterator)
  : outcome (MachineBasicBlock * iterator) :=
  if (I <? List.length MBB)%nat
  then Ret (splice MBB I [], I)
  else UndefinedBehaviour.

(** [eliminateCallFramePseudoInstr(MF, MBB, MI)]: eliminate the
    ADJCALLSTACKDOWN and ADJCALLSTACKUP pseudo instructions. *)
Definition eliminateCallFramePseudoInstr
    (MF : MachineFunction) (MBB : MachineBasicBlock) (MI : iterator)
  : outcome (MachineBasicBlock * iterator) :=
  erase MBB MI.

Lemma splice_nil_split {A : Type} (l : list A) (n : nat) :
  (n < List.length l)%nat ->
  exists pre x post,
    l = pre ++ x :: post /\ List.length pre = n /\ splice l n [] = pre ++ post.
Proof.
  intros Hn.
  destruct (nth_error l n) as [x|] eqn:Hx.
  - apply nth_error_split in Hx as (pre & post & -> & Hlen).
    exists pre, x, post. repeat split; [exact Hlen|].
    subst n. apply splice_app.
  - apply nth_error_None in Hx. lia.
Qed.

(** C5.  Called at an instruction of the block,
    [eliminateCallFramePseudoInstr] returns the block without that one
    instruction: the instructions before it and after it are kept as they
    were and in order, nothing is put in its place, and the block is one
    instruction shorter.  The iterator returned designates the
    instruction that followed. *)
Theorem eliminateCallFramePseudoInstr_erases_one
    (MF : MachineFunction) (MBB : MachineBasicBlock) (MI : iterator) :
  (MI < List.length MBB)%nat ->
  exists pre pseudo post,
    MBB = pre ++ pseudo :: post /\
    List.length pre = MI /\
    eliminateCallFramePseudoInstr MF MBB MI = Ret (pre ++ post, MI) /\
    S (List.length (pre ++ post)) = List.length MBB.
Proof.
  intros Hlt.
  destruct (splice_nil_split MBB MI Hlt) as (pre & x & post & HM & Hlen & Hs).
  exists pre, x, post. repeat split; try assumption.
  - unfold eliminateCallFramePseudoInstr, erase.
    apply Nat.ltb_lt in Hlt. rewrite Hlt, Hs. reflexivity.
  - rewrite HM, !length_app. cbn. lia.
Qed.

Definition ADJCALLSTACKDOWN : MachineInstr := mkMachineInstr 100 [MO_Immediate 4].
Definition ADJCALLSTACKUP : MachineInstr := mkMachineInstr 101 [MO_Immediate 4].
Definition example_block : MachineBasicBlock :=
  [ADJCALLSTACKDOWN; mkMachineInstr 7 [MO_GlobalAddress "f" 0]; ADJCALLSTACKUP].

Lemma eliminateCallFramePseudoInstr_erases_one_witness :
  exists pre pseudo post,
    example_block = pre ++ pseudo :: post /\
    List.length pre = 2%nat /\
    eliminateCallFramePseudoInstr [example_block] example_block 2%nat
      = Ret (pre ++ post, 2%nat) /\
    S (List.length (pre ++ post)) = List.length example_block.
Proof.
  apply (eliminateCallFramePseudoInstr_erases_one
           [example_block] example_block 2%nat).
  cbn. lia.
Defined.

End FrameLowering.

(* ================================================================= *)
(** ** CDMRegisterInfo *)

Module RegisterInfo.

Section FrameIndexElimination.

(** The registers of the frame: stack pointer, frame pointer, and the
    register an address is materialized into. *)
Variables SP FP scratch : Z.
(** The opcode of the address-materialization instruction
    [dst := base + constant]. *)
Variable ADDR_MAT : Z.
(** The immediate range of the addressing mode, from the architecture
    description tables. *)
Variables imm_lo imm_hi : Z.
(** The frame layout: the byte offset of each slot from the frame base. *)
Variable frame_layout : Z -> Z.
(** The decision of frame lowering for the function. *)
Variable hasFP : bool.

(** Modelled from the spec: [getFrameRegister] is only declared in
    CDMRegisterInfo.h.  "Returns the physical register currently serving
    as frame base (stack pointer if no frame pointer, else the dedicated
    frame-pointer register)." *)
Definition getFrameRegister : Z := if hasFP then FP else SP.

Definition isEncodable (c : Z) : bool := (imm_lo <=? c) && (c <=? imm_hi).

Definition materialize (dst base c : Z) : MachineInstr :=
  mkMachineInstr ADDR_MAT [MO_Register dst; MO_Register base; MO_Immediate c].

(** [MI] with its operand [n] replaced by the operands [new]. *)
Definition rewriteOperand (MI : MachineInstr) (n : nat)
    (new : list MachineOperand) : MachineInstr :=
  mkMachineInstr (MI_Opcode MI) (splice (MI_Operands MI) n new).

(** Modelled from the spec: [eliminateFrameIndex] is only declared in
    CDMRegisterInfo.h.  "Given a Machine Instruction operand of kind
    FrameIndex(slot, offset) and the instruction's local stack-adjustment
    state, rewrite it to Register(base) + Immediate(concrete signed
    offset) where concrete offset = frame_layout[slot] + offset +
    stack_adjustment.  If the concrete offset exceeds the architecture's
    encodable immediate range, insert an address-materialization
    instruction immediately before and redirect the memory operand to use
    the materialized address register instead of failing."  The iterator
    is a position [II] in its block; the result is the block after the
    rewrite.  An iterator or operand number that does not designate a
    frame-index operand is outside the contract. *)
Definition eliminateFrameIndex (MBB : MachineBasicBlock) (II : iterator)
    (SPAdj : Z) (FIOperandNum : nat) : outcome MachineBasicBlock :=
  match nth_error MBB II with
  | None => UndefinedBehaviour
  | Some MI =>
      match nth_error (MI_Operands MI) FIOperandNum with
      | Some (MO_FrameIndex slot offset) =>
          let base := getFrameRegister in
          let concrete := frame_layout slot + offset + SPAdj in
          if isEncodable concrete then
            Ret (splice MBB II
                   [rewriteOperand MI FIOperandNum
                      [MO_Register base; MO_Immediate concrete]])
          else
            Ret (splice MBB II
                   [materialize scratch base concrete;
                    rewriteOperand MI FIOperandNum
                      [MO_Register scratch; MO_Immediate 0]])
      | _ => UndefinedBehaviour
      end
  end.

(** *** Addresses *)

Definition RegFile := Z -> Z.

(** The address a Register + Immediate operand pair at position [n]
    designates. *)
Definition effective_address (regs : RegFile) (MI : MachineInstr) (n : nat)
  : option Z :=
  match nth_error (MI_Operands MI) n, nth_error (MI_Operands MI) (S n) with
  | Some (MO_Register r), Some (MO_Immediate i) => Some (regs r + i)
  | _, _ => None
  end.

(** The register file after an address-materialization instruction. *)
Definition exec_materialize (MI : MachineInstr) (regs : RegFile) : RegFile :=
  match MI_Operands MI with
  | [MO_Register dst; MO_Register base; MO_Immediate c] =>
      fun r => if r =? dst then regs base + c else regs r
  | _ => regs
  end.

Lemma effective_address_rewriteOperand regs MI n MO r i :
  nth_error (MI_Operands MI) n = Some MO ->
  effective_address regs
    (rewriteOperand MI n [MO_Register r; MO_Immediate i]) n
  = Some (regs r + i).
Proof.
  intros Hn. apply nth_error_split in Hn as (pre & post & Hops & Hlen).
  unfold effective_address, rewriteOperand. cbn [MI_Operands].
  rewrite Hops. subst n. rewrite splice_app.
  rewrite (nth_error_app2 pre _ (n := List.length pre)) by lia.
  rewrite (nth_error_app2 pre _ (n := S (List.length pre))) by lia.
  rewrite Nat.sub_diag.
  replace (S (List.length pre) - List.length pre)%nat with 1%nat by lia.
  reflexivity.
Qed.

(** C2.  Let the instruction at [II] have a FrameIndex(slot, offset)
    operand at position [n], with concrete offset
    [frame_layout slot + offset + SPAdj].  If the concrete offset is in
    the immediate range, elimination replaces the instruction by one
    instruction, the same but for that operand, which becomes the frame
    register followed by the concrete offset; the block keeps its length.
    Otherwise exactly one materialization instruction is placed
    immediately before the instruction, the block grows by one, and after
    the materialization the rewritten operand designates the same
    address: frame base plus concrete offset. *)
Theorem eliminateFrameIndex_rewrites
    (MBB : MachineBasicBlock) (II : iterator) (MI : MachineInstr)
    (SPAdj : Z) (n : nat) (slot offset : Z) :
  nth_error MBB II = Some MI ->
  nth_error (MI_Operands MI) n = Some (MO_FrameIndex slot offset) ->
  let concrete := frame_layout slot + offset + SPAdj in
  exists pre post,
    MBB = pre ++ MI :: post /\ List.length pre = II /\
    (imm_lo <= concrete <= imm_hi ->
       exists MI',
         eliminateFrameIndex MBB II SPAdj n = Ret (pre ++ MI' :: post) /\
         List.length (pre ++ MI' :: post) = List.length MBB /\
         MI_Opcode MI' = MI_Opcode MI /\
         MI_Operands MI' =
           splice (MI_Operands MI) n
             [MO_Register getFrameRegister; MO_Immediate concrete] /\
         forall regs,
           effective_address regs MI' n
           = Some (regs getFrameRegister + concrete)) /\
    (~ imm_lo <= concrete <= imm_hi ->
       exists MI',
         eliminateFrameIndex MBB II SPAdj n =
           Ret (pre ++ materialize scratch getFrameRegister concrete
                    :: MI' :: post) /\
         List.length (pre ++ materialize scratch getFrameRegister concrete
                          :: MI' :: post) = S (List.length MBB) /\
         MI_Opcode MI' = MI_Opcode MI /\
         forall regs,
           effective_address
             (exec_materialize
                (materialize scratch getFrameRegister concrete) regs) MI' n
           = Some (regs getFrameRegister + concrete)).
Proof.
  intros HMI Hop concrete.
  pose proof HMI as Hsplit.
  apply nth_error_split in Hsplit as (pre & post & HM & Hlen).
  exists pre, post. split; [exact HM|]. split; [exact Hlen|].
  unfold eliminateFrameIndex. rewrite HMI, Hop. fold concrete.
  split; intros Hrange.
  - assert (isEncodable concrete = true) as ->.
    { unfold isEncodable. apply andb_true_intro. split; apply Z.leb_le; lia. }
    eexists. split; [|split; [|split; [|split]]].
    + rewrite HM at 1. rewrite <- Hlen, splice_app. reflexivity.
    + rewrite HM, !length_app. reflexivity.
    + reflexivity.
    + reflexivity.
    + intros regs. eapply effective_address_rewriteOperand; eassumption.
  - assert (isEncodable concrete = false) as ->.
    { unfold isEncodable. apply andb_false_iff.
      destruct (Z.leb_spec imm_lo concrete); [|now left].
      destruct (Z.leb_spec concrete imm_hi); [lia|now right]. }
    eexists. split; [|split; [|split]].
    + rewrite HM at 1. rewrite <- Hlen, splice_app. reflexivity.
    + rewrite HM, !length_app. cbn. lia.
    + reflexivity.
    + intros regs.
      erewrite effective_address_rewriteOperand by eassumption.
      unfold exec_materialize, materialize. cbn [MI_Operands].
      rewrite Z.eqb_refl. f_equal. lia.
Qed.

End FrameIndexElimination.

(** *** A concrete frame *)

(** A load [ld r1, FrameIndex(slot, 2)] in a block, slots four bytes
    apart, immediates of 7 bits with sign. *)
Definition example_load (slot : Z) : MachineInstr :=
  mkMachineInstr 20 [MO_Register 1; MO_FrameIndex slot 2].
Definition frame_block (slot : Z) : MachineBasicBlock :=
  [mkMachineInstr 5 [MO_Register 1; MO_Immediate 0]; example_load slot].
Definition example_layout (slot : Z) : Z := 4 * slot.

Lemma eliminateFrameIndex_rewrites_witness :
  (exists pre post,
     frame_block 3 = pre ++ example_load 3 :: post /\
     List.length pre = 1%nat /\
     exists MI',
       eliminateFrameIndex 14 15 9 30 (-64) 63 example_layout false
         (frame_block 3) 1%nat 0 1%nat = Ret (pre ++ MI' :: post) /\
       MI_Operands MI' = [MO_Register 1; MO_Register 14; MO_Immediate 14]) /\
  (exists pre post,
     frame_block 40 = pre ++ example_load 40 :: post /\
     List.length pre = 1%nat /\
     exists MI',
       eliminateFrameIndex 14 15 9 30 (-64) 63 example_layout false
         (frame_block 40) 1%nat 0 1%nat
       = Ret (pre ++ materialize 30 9 (getFrameRegister 14 15 false) 162
                  :: MI' :: post) /\
       forall regs,
         effective_address
           (exec_materialize (materialize 30 9 14 162) regs) MI' 1%nat
         = Some (regs 14 + 162)).
Proof.
  split.
  - destruct (eliminateFrameIndex_rewrites 14 15 9 30 (-64) 63
                example_layout false (frame_block 3) 1%nat (example_load 3)
                0 1%nat 3 2 eq_refl eq_refl)
      as (pre & post & HM & Hlen & Hin & _).
    exists pre, post. split; [exact HM|]. split; [exact Hlen|].
    destruct Hin as (MI' & He & _ & _ & Hops & _);
      [cbn; lia|].
    exists MI'. split; [exact He|exact Hops].
  - destruct (eliminateFrameIndex_rewrites 14 15 9 30 (-64) 63
                example_layout false (frame_block 40) 1%nat (example_load 40)
                0 1%nat 40 2 eq_refl eq_refl)
      as (pre & post & HM & Hlen & _ & Hout).
    exists pre, post. split; [exact HM|]. split; [exact Hlen|].
    destruct Hout as (MI' & He & _ & _ & Haddr);
      [cbn; lia|].
    exists MI'. split; [exact He|exact Haddr].
Defined.

End RegisterInfo.

(* ================================================================= *)
(** ** SourceMgrUtils *)

Module SourceMgrUtils.

(** *** Source locations, buffers, the source manager *)

(** A source location is a pointer into a buffer; the null pointer is the
    invalid location [SMLoc()]. *)
Record SMLoc : Type := getFromPointer { getPointer : Z }.

Definition SMLoc_default : SMLoc := getFromPointer 0.

Definition SMLoc_isValid (loc : SMLoc) : bool := negb (getPointer loc =? 0).

Record SMRange : Type := mkSMRange { Start : SMLoc; End : SMLoc }.

(** [SMRange()]. *)
Definition SMRange_default : SMRange := mkSMRange SMLoc_default SMLoc_default.

(** A memory buffer: its identifier (the path it was read from), the
    address of its first character and its characters.  The character at
    the end address is the terminating NUL. *)
Record MemoryBuffer : Type := mkMemoryBuffer {
  getBufferIdentifier : string;
  getBufferStart : Z;
  getBuffer : list ascii
}.

Definition getBufferEnd (B : MemoryBuffer) : Z :=
  getBufferStart B + Z.of_nat (List.length (getBuffer B)).

Record SrcBuffer : Type := mkSrcBuffer {
  Buffer : MemoryBuffer;
  IncludeLoc : SMLoc
}.

(** The source manager: its vector of buffers; buffer ids start at 1. *)
Definition SourceMgr := list SrcBuffer.

Definition getNumBuffers (sourceMgr : SourceMgr) : nat := List.length sourceMgr.

Definition getMainFileID (sourceMgr : SourceMgr) : nat := 1.

(** [getBufferInfo(i)] asserts that [i] is a valid buffer id. *)
Definition getBufferInfo (sourceMgr : SourceMgr) (i : nat) : outcome SrcBuffer :=
  match i with
  | O => AssertionFailed "isValidBufferID(i)"
  | S j =>
      match nth_error sourceMgr j with
      | Some info => Ret info
      | None => AssertionFailed "isValidBufferID(i)"
      end
  end.

Definition getMemoryBuffer (sourceMgr : SourceMgr) (i : nat)
  : outcome MemoryBuffer :=
  info <- getBufferInfo sourceMgr i ;; Ret (Buffer info).

(** A pointer belongs to a buffer from its start to its end included (the
    terminating NUL). *)
Definition inBuffer (B : MemoryBuffer) (p : Z) : bool :=
  (getBufferStart B <=? p) && (p <=? getBufferEnd B).

Fixpoint FindBufferContainingLoc_from (buffers : list SrcBuffer) (i : nat)
    (loc : SMLoc) : nat :=
  match buffers with
  | [] => 0%nat
  | info :: rest =>
      if inBuffer (Buffer info) (getPointer loc) then S i
      else FindBufferContainingLoc_from rest (S i) loc
  end.

(** [FindBufferContainingLoc(loc)]: the id of the first buffer the
    location points into, 0 if there is none. *)
Definition FindBufferContainingLoc (sourceMgr : SourceMgr) (loc : SMLoc) : nat :=
  FindBufferContainingLoc_from sourceMgr 0 loc.

(** *** Characters *)

Definition NUL : ascii := ascii_of_nat 0.
Definition DQUOTE : ascii := ascii_of_nat 34.
Definition BACKSLASH : ascii := ascii_of_nat 92.

Definition between (lo hi : nat) (c : ascii) : bool :=
  let n := nat_of_ascii c in ((lo <=? n) && (n <=? hi))%nat.

Definition isDigit (c : ascii) : bool := between 48 57 c.

Definition isalnum (c : ascii) : bool :=
  isDigit c || between 65 90 c || between 97 122 c.

Definition isHexDigit (c : ascii) : bool :=
  isDigit c || between 65 70 c || between 97 102 c.

(** [StringRef::contains(char)]. *)
Definition contains_char (s : string) (c : ascii) : bool :=
  existsb (Ascii.eqb c) (list_ascii_of_string s).

(** The characters stored from address [p] up to the end of the buffer
    of [memory] that [p] points into; none if [p] points into no buffer. *)
Definition chars_from (memory : list MemoryBuffer) (p : Z)
  : option (list ascii) :=
  match find (fun B => inBuffer B p) memory with
  | Some B => Some (skipn (Z.to_nat (p - getBufferStart B)) (getBuffer B))
  | None => None
  end.

(** *** Token ranges *)

(** [lexLocStringTok(curPtr)]: [s] holds the characters from [curPtr] on;
    past them the terminating NUL is read.  Returns the end pointer. *)
Fixpoint lexLocStringTok (s : list ascii) (curPtr : Z) : Z :=
  match s with
  | [] => curPtr
  | c :: rest =>
      if Ascii.eqb c NUL then curPtr
      else if contains_char (String DQUOTE
                               (String (ascii_of_nat 10)
                                  (String (ascii_of_nat 11)
                                     (String (ascii_of_nat 12) EmptyString)))) c
      then curPtr + 1
      else if Ascii.eqb c BACKSLASH then
        match rest with
        | [] => curPtr + 1
        | d :: rest' =>
            if Ascii.eqb d DQUOTE || Ascii.eqb d BACKSLASH
               || Ascii.eqb d "n"%char || Ascii.eqb d "t"%char
            then lexLocStringTok rest' (curPtr + 2)
            else
              match rest' with
              | [] => curPtr + 1
              | e :: rest'' =>
                  if isHexDigit d && isHexDigit e
                  then lexLocStringTok rest'' (curPtr + 3)
                  else curPtr + 1
              end
        end
      else lexLocStringTok rest (curPtr + 1)
  end.

Definition isIdentifierChar (identifierChars : string) (c : ascii) : bool :=
  isalnum c || Ascii.eqb c "_"%char || contains_char identifierChars c.

(** The identifier loop: while the character at [curPtr] is not NUL,
    advance [curPtr] and go on if the character there is an identifier
    character. *)
Fixpoint identifier_loop (identifierChars : string) (s : list ascii)
    (curPtr : Z) : Z :=
  match s with
  | [] => curPtr
  | c :: rest =>
      if Ascii.eqb c NUL then curPtr
      else if isIdentifierChar identifierChars (hd NUL rest)
           then identifier_loop identifierChars rest (curPtr + 1)
           else curPtr + 1
  end.

(** [convertTokenLocToRange(loc, identifierChars)], reading [memory]. *)
Definition convertTokenLocToRange (memory : list MemoryBuffer) (loc : SMLoc)
    (identifierChars : string) : outcome SMRange :=
  if negb (SMLoc_isValid loc) then Ret SMRange_default
  else
    let curPtr := getPointer loc in
    match chars_from memory curPtr with
    | None => UndefinedBehaviour
    | Some s =>
        let curPtr :=
          if Ascii.eqb (hd NUL s) DQUOTE
          then lexLocStringTok (tl s) (curPtr + 1)
          else identifier_loop identifierChars s curPtr in
        Ret (mkSMRange loc (getFromPointer curPtr))
    end.

(** [contains(range, loc)]. *)
Definition contains (range : SMRange) (loc : SMLoc) : bool :=
  (getPointer (Start range) <=? getPointer loc) &&
  (getPointer loc <? getPointer (End range)).

(** *** Include files *)

(** [llvm::Expected<T>]: a value or an error. *)
Inductive Expected (T : Type) : Type :=
| Success (v : T)
| Failure (err : string).

Arguments Success {T} v.
Arguments Failure {T} err.

Section Includes.

(** The path functions of [llvm::sys::path] ([remove_dots] with
    [remove_dot_dot] set), the URI constructor and the conversion of a
    source range into an LSP range. *)
Variable URIForFile : Type.
Variable Range : Type.
Variable remove_dots : string -> string.
Variable is_absolute : string -> bool.
Variable parent_path : string -> string.
Variable URIForFile_fromFile : string -> Expected URIForFile.
Variable mkRange : SourceMgr -> SMRange -> Range.

Record SourceMgrInclude : Type := mkSourceMgrInclude {
  uri : URIForFile;
  range : Range
}.

(** The path of an included buffer, made absolute against the directory
    of the including file when it is relative. *)
Definition includePath (sourceMgr : SourceMgr) (includeLoc : SMLoc)
    (buffer : MemoryBuffer) : outcome string :=
  let path := remove_dots (getBufferIdentifier buffer) in
  if negb (is_absolute path) then
    includer <- getMemoryBuffer sourceMgr
                  (FindBufferContainingLoc sourceMgr includeLoc) ;;
    let includerPath := getBufferIdentifier includer in
    let includerDir := parent_path includerPath in
    let absPath := String.append includerDir (String.append "/" path) in
    Ret absPath
  else Ret path.

(** The backward scan for the opening quote of the include token: the
    positions below [n] of the buffer are read downwards until a quote is
    found; without one the scan leaves the buffer. *)
Fixpoint find_quote_before (chars : list ascii) (n : nat) : option nat :=
  match n with
  | O => None
  | S m =>
      if Ascii.eqb (nth m chars NUL) DQUOTE then Some m
      else find_quote_before chars m
  end.

(** One turn of the main loop of [gatherIncludeFiles], for the index [i]:
    it looks at buffer [i + 1]. *)
Definition gather_step (sourceMgr : SourceMgr) (i : nat)
    (includes : list SourceMgrInclude) : outcome (list SourceMgrInclude) :=
  info <- getBufferInfo sourceMgr (i + 1) ;;
  let includeLoc := IncludeLoc info in
  if negb (SMLoc_isValid includeLoc)
     || negb (FindBufferContainingLoc sourceMgr includeLoc
              =? getMainFileID sourceMgr)%nat
  then Ret includes
  else
    buffer <- getMemoryBuffer sourceMgr (i + 1) ;;
    path <- includePath sourceMgr includeLoc buffer ;;
    match URIForFile_fromFile path with
    | Failure err => Ret includes
    | Success includedFileURI =>
        includer <- getMemoryBuffer sourceMgr
                      (FindBufferContainingLoc sourceMgr includeLoc) ;;
        let offset := getPointer includeLoc - getBufferStart includer in
        match find_quote_before (getBuffer includer) (Z.to_nat (offset - 2)) with
        | None => UndefinedBehaviour
        | Some m =>
            let includeStart := getBufferStart includer + Z.of_nat m in
            let includeRange :=
              mkSMRange (getFromPointer includeStart) includeLoc in
            Ret (includes ++
                 [mkSourceMgrInclude includedFileURI
                    (mkRange sourceMgr includeRange)])
        end
    end.

Fixpoint gather_loop (sourceMgr : SourceMgr) (indices : list nat)
    (includes : list SourceMgrInclude) : outcome (list SourceMgrInclude) :=
  match indices with
  | [] => Ret includes
  | i :: rest =>
      includes' <- gather_step sourceMgr i includes ;;
      gather_loop sourceMgr rest includes'
  end.

(** [gatherIncludeFiles(sourceMgr, includes)]: the loop runs over
    [i = 1 .. getNumBuffers() - 1].  The calls of [Logger::info] write to
    the log only and are left out. *)
Definition gatherIncludeFiles (sourceMgr : SourceMgr)
    (includes : list SourceMgrInclude) : outcome (list SourceMgrInclude) :=
  gather_loop sourceMgr (seq 1 (getNumBuffers sourceMgr - 1)) includes.

(** The include of buffer [i + 1] was found in the main file, but no URI
    could be built for its path. *)
Definition URI_fails (sourceMgr : SourceMgr) (i : nat) : Prop :=
  exists info path err,
    getBufferInfo sourceMgr (i + 1) = Ret info /\
    SMLoc_isValid (IncludeLoc info) = true /\
    FindBufferContainingLoc sourceMgr (IncludeLoc info)
      = getMainFileID sourceMgr /\
    includePath sourceMgr (IncludeLoc info) (Buffer info) = Ret path /\
    URIForFile_fromFile path = Failure err.

(** *** Properties *)

Lemma gather_loop_app sourceMgr l1 l2 includes :
  gather_loop sourceMgr (l1 ++ l2) includes =
  (includes' <- gather_loop sourceMgr l1 includes ;;
   gather_loop sourceMgr l2 includes').
Proof.
  revert includes; induction l1 as [|i l1 IH]; intros includes; cbn.
  - reflexivity.
  - destruct (gather_step sourceMgr i includes); cbn; auto.
Qed.

Lemma gather_step_URI_fails sourceMgr i includes :
  URI_fails sourceMgr i -> gather_step sourceMgr i includes = Ret includes.
Proof.
  intros (info & path & err & Hinfo & Hvalid & Hmain & Hpath & Herr).
  unfold gather_step. rewrite Hinfo. cbn [bind].
  rewrite Hvalid, Hmain, Nat.eqb_refl. cbn [negb orb].
  unfold getMemoryBuffer at 1. rewrite Hinfo. cbn [bind].
  rewrite Hpath. cbn [bind]. rewrite Herr. reflexivity.
Qed.

Lemma getBufferInfo_valid sourceMgr i info :
  getBufferInfo sourceMgr (i + 1) = Ret info ->
  (i < getNumBuffers sourceMgr)%nat.
Proof.
  rewrite Nat.add_1_r. cbn [getBufferInfo].
  destruct (nth_error sourceMgr i) eqn:E; [|discriminate].
  intros _. apply nth_error_Some. congruence.
Qed.

(** Every turn of the loop keeps the includes gathered so far and adds at
    most one. *)
Lemma gather_step_appends sourceMgr i includes includes' :
  gather_step sourceMgr i includes = Ret includes' ->
  exists added,
    includes' = includes ++ added /\ (List.length added <= 1)%nat /\
    forall others, gather_step sourceMgr i others = Ret (others ++ added).
Proof.
  unfold gather_step.
  destruct (getBufferInfo sourceMgr (i + 1)) as [info| | |]; cbn [bind];
    try discriminate.
  destruct (negb (SMLoc_isValid (IncludeLoc info))
            || negb (FindBufferContainingLoc sourceMgr (IncludeLoc info)
                     =? getMainFileID sourceMgr)%nat).
  { intros H; inversion H; subst. exists []. rewrite app_nil_r.
    repeat split; [cbn; lia|]. intros others. now rewrite app_nil_r. }
  destruct (getMemoryBuffer sourceMgr (i + 1)) as [buffer| | |]; cbn [bind];
    try discriminate.
  destruct (includePath sourceMgr (IncludeLoc info) buffer) as [path| | |];
    cbn [bind]; try discriminate.
  destruct (URIForFile_fromFile path) as [includedFileURI|err].
  - destruct (getMemoryBuffer sourceMgr _) as [includer| | |]; cbn [bind];
      try discriminate.
    destruct (find_quote_before _ _) as [m|]; [|discriminate].
    intros H; inversion H; subst. eexists. repeat split. cbn; lia.
  - intros H; inversion H; subst. exists []. rewrite app_nil_r.
    repeat split; [cbn; lia|]. intros others. now rewrite app_nil_r.
Qed.

(** Without the turn for an index [k] whose URI cannot be built, the loop
    gives the same outcome. *)
Lemma gatherIncludeFiles_without_failed
    (sourceMgr : SourceMgr) (k : nat) (includes : list SourceMgrInclude) :
  (1 <= k)%nat ->
  URI_fails sourceMgr k ->
  gatherIncludeFiles sourceMgr includes =
    gather_loop sourceMgr
      (seq 1 (k - 1) ++ seq (k + 1) (getNumBuffers sourceMgr - 1 - k))
      includes.
Proof.
  intros Hk Hfail.
  assert (k < getNumBuffers sourceMgr)%nat as Hlt.
  { destruct Hfail as (info & _ & _ & Hinfo & _).
    eapply getBufferInfo_valid; eassumption. }
  assert (seq 1 (getNumBuffers sourceMgr - 1) =
          seq 1 (k - 1) ++ k :: seq (k + 1) (getNumBuffers sourceMgr - 1 - k))
    as Hseq.
  { transitivity
      (seq 1 ((k - 1) + S (getNumBuffers sourceMgr - 1 - k))).
    - f_equal. lia.
    - rewrite seq_app. cbn [seq]. do 3 f_equal; lia. }
  unfold gatherIncludeFiles. rewrite Hseq, !gather_loop_app.
  destruct (gather_loop sourceMgr (seq 1 (k - 1)) includes) as [incs| | |];
    cbn [bind]; try reflexivity.
  cbn [gather_loop].
  rewrite (gather_step_URI_fails sourceMgr k incs Hfail). reflexivity.
Qed.

(** *** Further properties of the gathering *)

Lemma find_quote_before_spec (chars : list ascii) (n m : nat) :
  find_quote_before chars n = Some m ->
  (m < n)%nat /\
  nth m chars NUL = DQUOTE /\
  forall j, (m < j < n)%nat -> nth j chars NUL <> DQUOTE.
Proof.
  induction n as [|n IH]; cbn [find_quote_before]; [discriminate|].
  destruct (Ascii.eqb (nth n chars NUL) DQUOTE) eqn:E.
  - intros H; inversion H; subst. apply Ascii.eqb_eq in E.
    repeat split; [lia|exact E|]. intros j Hj. lia.
  - intros H. destruct (IH H) as (Hlt & Hq & Hnear).
    repeat split; [lia|exact Hq|].
    intros j Hj. destruct (Nat.eq_dec j n) as [->|Hne].
    + now apply Ascii.eqb_neq.
    + apply Hnear. lia.
Qed.

Lemma gather_loop_appends sourceMgr indices :
  forall includes out,
    gather_loop sourceMgr indices includes = Ret out ->
    exists added,
      out = includes ++ added /\
      (List.length added <= List.length indices)%nat /\
      forall others,
        gather_loop sourceMgr indices others = Ret (others ++ added).
Proof.
  induction indices as [|i rest IH]; intros includes out; cbn [gather_loop].
  - intros H; inversion H; subst. exists []. rewrite app_nil_r.
    repeat split; [cbn; lia|]. intros others. now rewrite app_nil_r.
  - destruct (gather_step sourceMgr i includes) as [includes'| | |] eqn:Hstep;
      cbn [bind]; try discriminate.
    intros Hrest.
    destruct (gather_step_appends _ _ _ _ Hstep) as (a1 & -> & Hlen1 & Hind1).
    destruct (IH _ _ Hrest) as (a2 & -> & Hlen2 & Hind2).
    exists (a1 ++ a2). rewrite app_assoc. split; [reflexivity|].
    split; [rewrite length_app; cbn [List.length]; lia|].
    intros others. rewrite Hind1. cbn [bind]. rewrite Hind2.
    now rewrite app_assoc.
Qed.

(** The gathering only appends to the vector it is given: what the
    vector held stays in front, at most one include is added for each
    buffer after the main one, and the includes added do not depend on
    what the vector held.  With the main buffer alone, or no buffer,
    nothing is added. *)
Theorem gatherIncludeFiles_appends
    (sourceMgr : SourceMgr) (includes out : list SourceMgrInclude) :
  (gatherIncludeFiles sourceMgr includes = Ret out ->
   exists added,
     out = includes ++ added /\
     (List.length added <= getNumBuffers sourceMgr - 1)%nat /\
     forall others,
       gatherIncludeFiles sourceMgr others = Ret (others ++ added)) /\
  ((getNumBuffers sourceMgr <= 1)%nat ->
   gatherIncludeFiles sourceMgr includes = Ret includes).
Proof.
  unfold gatherIncludeFiles. split.
  - intros H. destruct (gather_loop_appends _ _ _ _ H)
      as (added & -> & Hlen & Hind).
    exists added. rewrite length_seq in Hlen. auto.
  - intros Hn.
    replace (getNumBuffers sourceMgr - 1)%nat with 0%nat by lia.
    reflexivity.
Qed.

(** An include is added by a turn of the loop only for a buffer whose
    include location is valid and lies in the main file, and for whose
    path a URI is built.  Its range ends at the include location and
    starts at the nearest double quote of the main file that lies three
    characters or more before that location. *)
Theorem gather_step_added_include
    (sourceMgr : SourceMgr) (i : nat) (includes : list SourceMgrInclude)
    (include : SourceMgrInclude) :
  gather_step sourceMgr i includes = Ret (includes ++ [include]) ->
  exists info main path m,
    getBufferInfo sourceMgr (i + 1) = Ret info /\
    SMLoc_isValid (IncludeLoc info) = true /\
    FindBufferContainingLoc sourceMgr (IncludeLoc info)
      = getMainFileID sourceMgr /\
    getMemoryBuffer sourceMgr (getMainFileID sourceMgr) = Ret main /\
    includePath sourceMgr (IncludeLoc info) (Buffer info) = Ret path /\
    URIForFile_fromFile path = Success (uri include) /\
    range include =
      mkRange sourceMgr
        (mkSMRange (getFromPointer (getBufferStart main + Z.of_nat m))
                   (IncludeLoc info)) /\
    nth m (getBuffer main) NUL = DQUOTE /\
    getBufferStart main + Z.of_nat m + 3 <= getPointer (IncludeLoc info) /\
    (forall j,
        getBufferStart main + Z.of_nat m < getBufferStart main + Z.of_nat j
          <= getPointer (IncludeLoc info) - 3 ->
        nth j (getBuffer main) NUL <> DQUOTE).
Proof.
  assert (forall l (x : SourceMgrInclude), l <> l ++ [x]) as Hneq.
  { intros l x H. apply (f_equal (@List.length _)) in H.
    rewrite length_app in H. cbn in H. lia. }
  unfold gather_step.
  destruct (getBufferInfo sourceMgr (i + 1)) as [info| | |] eqn:Hinfo;
    cbn [bind]; try discriminate.
  destruct (SMLoc_isValid (IncludeLoc info)) eqn:Hvalid; cbn [negb orb];
    [|intros H; inversion H as [H']; now apply Hneq in H'].
  destruct (Nat.eqb_spec (FindBufferContainingLoc sourceMgr (IncludeLoc info))
                         (getMainFileID sourceMgr)) as [Hmain|Hmain];
    cbn [negb];
    [|intros H; inversion H as [H']; now apply Hneq in H'].
  unfold getMemoryBuffer at 1. rewrite Hinfo. cbn [bind].
  destruct (includePath sourceMgr (IncludeLoc info) (Buffer info))
    as [path| | |] eqn:Hpath; cbn [bind]; try discriminate.
  destruct (URIForFile_fromFile path) as [includedFileURI|err] eqn:Huri;
    [|intros H; inversion H as [H']; now apply Hneq in H'].
  rewrite Hmain.
  destruct (getMemoryBuffer sourceMgr (getMainFileID sourceMgr))
    as [main| | |] eqn:Hbuf; cbn [bind]; try discriminate.
  destruct (find_quote_before _ _) as [m|] eqn:Hq; [|discriminate].
  intros H; inversion H as [H']. apply app_inv_head in H'.
  inversion H'; subst include; clear H H'. cbn [uri range].
  destruct (find_quote_before_spec _ _ _ Hq) as (Hlt & Hquote & Hnear).
  exists info, main, path, m.
  repeat split; try assumption; try reflexivity.
  - lia.
  - intros j Hj. apply Hnear. lia.
Qed.

(** *** What the other buffers contribute *)

(** Buffer [i + 1] is a file included from the main file for which a URI
    is built: [include] is the include the source describes for it, the
    URI of its path with the range from the opening quote of the include
    string to the include location. *)
Definition includes_file (sourceMgr : SourceMgr) (i : nat)
    (include : SourceMgrInclude) : Prop :=
  exists info main path includedFileURI m,
    getBufferInfo sourceMgr (i + 1) = Ret info /\
    SMLoc_isValid (IncludeLoc info) = true /\
    FindBufferContainingLoc sourceMgr (IncludeLoc info)
      = getMainFileID sourceMgr /\
    getMemoryBuffer sourceMgr (getMainFileID sourceMgr) = Ret main /\
    includePath sourceMgr (IncludeLoc info) (Buffer info) = Ret path /\
    URIForFile_fromFile path = Success includedFileURI /\
    find_quote_before (getBuffer main)
      (Z.to_nat (getPointer (IncludeLoc info) - getBufferStart main - 2))
      = Some m /\
    include =
      mkSourceMgrInclude includedFileURI
        (mkRange sourceMgr
           (mkSMRange (getFromPointer (getBufferStart main + Z.of_nat m))
                      (IncludeLoc info))).

(** What the turn of the loop for [i] adds to an empty vector. *)
Definition contribution (sourceMgr : SourceMgr) (i : nat)
  : list SourceMgrInclude :=
  match gather_step sourceMgr i [] with
  | Ret added => added
  | _ => []
  end.

(** The indices of the loop other than [k]. *)
Definition other_indices (sourceMgr : SourceMgr) (k : nat) : list nat :=
  seq 1 (k - 1) ++ seq (k + 1) (getNumBuffers sourceMgr - 1 - k).

Lemma gather_step_includes_file sourceMgr i include includes :
  includes_file sourceMgr i include ->
  gather_step sourceMgr i includes = Ret (includes ++ [include]).
Proof.
  intros (info & main & path & includedFileURI & m & Hinfo & Hvalid & Hmain
          & Hbuf & Hpath & Huri & Hq & ->).
  unfold gather_step. rewrite Hinfo. cbn [bind].
  rewrite Hvalid, Hmain, Nat.eqb_refl. cbn [negb orb].
  unfold getMemoryBuffer at 1. rewrite Hinfo. cbn [bind].
  rewrite Hpath. cbn [bind]. rewrite Huri, Hbuf. cbn [bind].
  rewrite Hq. reflexivity.
Qed.

Lemma contribution_step sourceMgr i includes includes' :
  gather_step sourceMgr i includes = Ret includes' ->
  includes' = includes ++ contribution sourceMgr i /\
  gather_step sourceMgr i [] = Ret (contribution sourceMgr i).
Proof.
  intros Hstep.
  destruct (gather_step_appends _ _ _ _ Hstep) as (added & -> & _ & Hind).
  unfold contribution. rewrite (Hind []). cbn [app]. auto.
Qed.

Lemma gather_loop_contributions sourceMgr indices :
  forall includes out,
    gather_loop sourceMgr indices includes = Ret out ->
    out = includes ++ flat_map (contribution sourceMgr) indices /\
    forall i, In i indices ->
      gather_step sourceMgr i [] = Ret (contribution sourceMgr i).
Proof.
  induction indices as [|i rest IH]; intros includes out; cbn [gather_loop].
  - intros H; inversion H; subst. cbn [flat_map]. rewrite app_nil_r.
    split; [reflexivity|]. intros i [].
  - destruct (gather_step sourceMgr i includes) as [includes'| | |] eqn:Hstep;
      cbn [bind]; try discriminate.
    intros Hrest.
    destruct (contribution_step _ _ _ _ Hstep) as [-> Hi].
    destruct (IH _ _ Hrest) as [-> Hall].
    cbn [flat_map]. rewrite app_assoc. split; [reflexivity|].
    intros j [<-|Hj]; auto.
Qed.

Lemma gather_loop_returns sourceMgr indices :
  (forall i, In i indices -> fatal (gather_step sourceMgr i []) = false) ->
  forall includes,
    gather_loop sourceMgr indices includes
    = Ret (includes ++ flat_map (contribution sourceMgr) indices).
Proof.
  induction indices as [|i rest IH]; intros Hall includes;
    cbn [gather_loop flat_map].
  - now rewrite app_nil_r.
  - pose proof (Hall i (or_introl eq_refl)) as Hi.
    destruct (gather_step sourceMgr i []) as [added| | |] eqn:Hstep;
      try discriminate Hi.
    destruct (gather_step_appends _ _ _ _ Hstep) as (a & Ha & _ & Hind).
    cbn [app] in Ha. subst a.
    rewrite (Hind includes). cbn [bind].
    rewrite IH by (intros j Hj; apply Hall; now right).
    unfold contribution at 2. rewrite Hstep. now rewrite app_assoc.
Qed.

(** C8.  When no URI can be built for the include of buffer [k + 1], the
    turn of the loop for [k] returns normally, with the includes gathered
    so far as they are, and the loop goes on: the whole gathering is the
    gathering over the other indices, in order, as if [k] were not there.
    A turn of the loop only ever appends.  So whenever the gathering
    returns, its result is the vector it was given followed by what each
    other buffer contributes, in order: it holds every include already
    gathered and the include of every other buffer that is a file
    included from the main file with a URI.  And the gathering does
    return whenever the turns of the other buffers do: the failure for
    [k] never ends it. *)
Theorem gatherIncludeFiles_skips_failed_URI
    (sourceMgr : SourceMgr) (k : nat) (includes : list SourceMgrInclude) :
  (1 <= k)%nat ->
  URI_fails sourceMgr k ->
  gather_step sourceMgr k includes = Ret includes /\
  gatherIncludeFiles sourceMgr includes =
    gather_loop sourceMgr
      (seq 1 (k - 1) ++ seq (k + 1) (getNumBuffers sourceMgr - 1 - k))
      includes /\
  (forall i gathered gathered',
     gather_step sourceMgr i gathered = Ret gathered' ->
     exists added, gathered' = gathered ++ added) /\
  (forall out,
     gatherIncludeFiles sourceMgr includes = Ret out ->
     out = includes
           ++ flat_map (contribution sourceMgr) (other_indices sourceMgr k) /\
     (forall include, In include includes -> In include out) /\
     (forall i include,
        (1 <= i < getNumBuffers sourceMgr)%nat -> i <> k ->
        includes_file sourceMgr i include -> In include out)) /\
  ((forall i, In i (other_indices sourceMgr k) ->
              fatal (gather_step sourceMgr i []) = false) ->
   gatherIncludeFiles sourceMgr includes
   = Ret (includes
          ++ flat_map (contribution sourceMgr) (other_indices sourceMgr k))).
Proof.
  intros Hk Hfail.
  pose proof (gatherIncludeFiles_without_failed sourceMgr k includes Hk Hfail)
    as Hloop.
  fold (other_indices sourceMgr k) in Hloop.
  split; [now apply gather_step_URI_fails|].
  split; [exact Hloop|].
  split;
    [intros i gathered gathered' Hstep;
     destruct (gather_step_appends _ _ _ _ Hstep) as (added & -> & _);
     now exists added|].
  split.
  - intros out Hout. rewrite Hloop in Hout.
    destruct (gather_loop_contributions _ _ _ _ Hout) as [-> Hall].
    split; [reflexivity|]. split.
    + intros include Hin. apply in_or_app. now left.
    + intros i include Hi Hne Hfile.
      apply in_or_app. right. apply in_flat_map. exists i. split.
      * unfold other_indices. apply in_or_app.
        destruct (Nat.lt_ge_cases i k) as [Hlt|Hge].
        -- left. apply in_seq. lia.
        -- right. apply in_seq. lia.
      * unfold contribution.
        rewrite (gather_step_includes_file _ _ _ [] Hfile). now left.
  - intros Hall. rewrite Hloop. now apply gather_loop_returns.
Qed.

End Includes.

(** C10.  For an invalid location [convertTokenLocToRange] returns the
    default range, whatever the identifier characters and whatever the
    memory holds: no character is read.  For a valid location the
    character it points to is read: if it points into no buffer the
    behaviour is undefined. *)
Theorem convertTokenLocToRange_invalid
    (memory : list MemoryBuffer) (loc : SMLoc) (identifierChars : string) :
  (SMLoc_isValid loc = false ->
     convertTokenLocToRange memory loc identifierChars = Ret SMRange_default) /\
  (SMLoc_isValid loc = true ->
     chars_from memory (getPointer loc) = None ->
     convertTokenLocToRange memory loc identifierChars = UndefinedBehaviour).
Proof.
  unfold convertTokenLocToRange. split.
  - intros ->. reflexivity.
  - intros -> ->. reflexivity.
Qed.

(** *** A concrete source manager *)

Definition chars (s : string) : list ascii := list_ascii_of_string s.

(** The text [include "a.h"], without the keyword's line break. *)
Definition include_line (file : string) : list ascii :=
  chars "include " ++ [DQUOTE] ++ chars file ++ [DQUOTE].

(** A main file at address 1000 that includes three files; the location
    of each include is the address after its closing quote. *)
Definition main_text : list ascii :=
  include_line "a.h" ++ [ascii_of_nat 10] ++
  include_line "bad.h" ++ [ascii_of_nat 10] ++
  include_line "c.h".

Definition example_sourceMgr : SourceMgr :=
  [mkSrcBuffer (mkMemoryBuffer "/src/main.td" 1000 main_text) SMLoc_default;
   mkSrcBuffer (mkMemoryBuffer "a.h" 2000 (chars "def a")) (getFromPointer 1013);
   mkSrcBuffer (mkMemoryBuffer "bad.h" 3000 (chars "def b")) (getFromPointer 1029);
   mkSrcBuffer (mkMemoryBuffer "c.h" 4000 (chars "def c")) (getFromPointer 1043)].

Definition example_is_absolute (path : string) : bool :=
  match path with
  | String c _ => Ascii.eqb c "/"%char
  | EmptyString => false
  end.

Definition example_parent_path (path : string) : string := "/src".

(** No URI can be built for [/src/bad.h]. *)
Definition example_fromFile (path : string) : Expected string :=
  if String.eqb path "/src/bad.h" then Failure "no such file"
  else Success path.

Definition example_gather :=
  gatherIncludeFiles string SMRange (fun path => path) example_is_absolute
    example_parent_path example_fromFile (fun _ r => r).

Example gatherIncludeFiles_example :
  example_gather example_sourceMgr [] =
  Ret [mkSourceMgrInclude string SMRange "/src/a.h"
         (mkSMRange (getFromPointer 1008) (getFromPointer 1013));
       mkSourceMgrInclude string SMRange "/src/c.h"
         (mkSMRange (getFromPointer 1038) (getFromPointer 1043))].
Proof. vm_compute. reflexivity. Qed.

Lemma gatherIncludeFiles_skips_failed_URI_witness :
  gather_step string SMRange (fun path => path) example_is_absolute
    example_parent_path example_fromFile (fun _ r => r)
    example_sourceMgr 2 [] = Ret [] /\
  [mkSourceMgrInclude string SMRange "/src/a.h"
     (mkSMRange (getFromPointer 1008) (getFromPointer 1013));
   mkSourceMgrInclude string SMRange "/src/c.h"
     (mkSMRange (getFromPointer 1038) (getFromPointer 1043))]
  = [] ++ flat_map
            (contribution string SMRange (fun path => path)
               example_is_absolute example_parent_path example_fromFile
               (fun _ r => r) example_sourceMgr)
            (other_indices example_sourceMgr 2) /\
  example_gather example_sourceMgr []
  = Ret ([] ++ flat_map
                 (contribution string SMRange (fun path => path)
                    example_is_absolute example_parent_path example_fromFile
                    (fun _ r => r) example_sourceMgr)
                 (other_indices example_sourceMgr 2)).
Proof.
  assert (Hk : (1 <= 2)%nat) by lia.
  assert (Hfail : URI_fails string (fun path => path) example_is_absolute
                    example_parent_path example_fromFile example_sourceMgr 2).
  { exists (mkSrcBuffer (mkMemoryBuffer "bad.h" 3000 (chars "def b"))
                        (getFromPointer 1029)),
           "/src/bad.h", "no such file".
    repeat split; reflexivity. }
  destruct (gatherIncludeFiles_skips_failed_URI string SMRange
              (fun path => path) example_is_absolute example_parent_path
              example_fromFile (fun _ r => r) example_sourceMgr 2 [] Hk Hfail)
    as (Hstep & _ & _ & Hout & Hret).
  split; [exact Hstep|]. split.
  - refine (proj1 (Hout _ _)). vm_compute. reflexivity.
  - apply Hret. intros i Hi.
    cbn in Hi. destruct Hi as [<-|[<-|[]]]; reflexivity.
Defined.

(** Token ranges in the main file: the identifier [include] at its start,
    and the string token of the first include. *)
Example convertTokenLocToRange_identifier :
  convertTokenLocToRange [mkMemoryBuffer "/src/main.td" 1000 main_text]
    (getFromPointer 1000) "" =
  Ret (mkSMRange (getFromPointer 1000) (getFromPointer 1007)).
Proof. vm_compute. reflexivity. Qed.

Example convertTokenLocToRange_string :
  convertTokenLocToRange [mkMemoryBuffer "/src/main.td" 1000 main_text]
    (getFromPointer 1008) "" =
  Ret (mkSMRange (getFromPointer 1008) (getFromPointer 1013)).
Proof. vm_compute. reflexivity. Qed.

Lemma convertTokenLocToRange_invalid_witness :
  convertTokenLocToRange [] SMLoc_default "$" = Ret SMRange_default /\
  convertTokenLocToRange [] (getFromPointer 1000) "$" = UndefinedBehaviour.
Proof.
  split.
  - apply (proj1 (convertTokenLocToRange_invalid [] SMLoc_default "$")).
    reflexivity.
  - apply (proj2 (convertTokenLocToRange_invalid [] (getFromPointer 1000) "$"));
      reflexivity.
Defined.

(** *** Token ranges: bounds and extent *)

(** The characters that end a string token. *)
Definition string_terminal (c : ascii) : bool :=
  Ascii.eqb c DQUOTE || Ascii.eqb c (ascii_of_nat 10)
  || Ascii.eqb c (ascii_of_nat 11) || Ascii.eqb c (ascii_of_nat 12).

(** The characters [d] of the escapes of one character. *)
Definition simple_escape (d : ascii) : bool :=
  Ascii.eqb d DQUOTE || Ascii.eqb d BACKSLASH
  || Ascii.eqb d "n"%char || Ascii.eqb d "t"%char.

(** The inside of a well-formed string token: plain characters, escapes
    of one character, and escapes of two hexadecimal digits. *)
Inductive string_body : list ascii -> Prop :=
| body_nil : string_body []
| body_plain (c : ascii) (body : list ascii) :
    c <> NUL -> string_terminal c = false -> c <> BACKSLASH ->
    string_body body -> string_body (c :: body)
| body_escape (d : ascii) (body : list ascii) :
    simple_escape d = true ->
    string_body body -> string_body (BACKSLASH :: d :: body)
| body_hex (d e : ascii) (body : list ascii) :
    isHexDigit d = true -> isHexDigit e = true ->
    string_body body -> string_body (BACKSLASH :: d :: e :: body).

Lemma contains_char_terminal (c : ascii) :
  contains_char (String DQUOTE
                   (String (ascii_of_nat 10)
                      (String (ascii_of_nat 11)
                         (String (ascii_of_nat 12) EmptyString)))) c
  = string_terminal c.
Proof.
  unfold contains_char, string_terminal. cbn [list_ascii_of_string existsb].
  now rewrite orb_false_r, !orb_assoc.
Qed.

Lemma isHexDigit_not_escape (d : ascii) :
  isHexDigit d = true -> simple_escape d = false.
Proof.
  destruct d as [[] [] [] [] [] [] [] []];
    vm_compute; intros H; try reflexivity; discriminate H.
Qed.

Lemma lexLocStringTok_bounds_aux (n : nat) :
  forall (s : list ascii) (curPtr : Z),
    (List.length s <= n)%nat ->
    curPtr <= lexLocStringTok s curPtr <= curPtr + Z.of_nat (List.length s).
Proof.
  induction n as [|n IH]; intros s curPtr Hlen.
  - destruct s; [cbn; lia|cbn in Hlen; lia].
  - destruct s as [|c rest]; [cbn; lia|].
    cbn [lexLocStringTok]. cbn [List.length] in *.
    destruct (Ascii.eqb c NUL); [lia|].
    destruct (contains_char _ c); [lia|].
    destruct (Ascii.eqb c BACKSLASH).
    + destruct rest as [|d rest']; [cbn; lia|]. cbn [List.length] in *.
      destruct (Ascii.eqb d DQUOTE || Ascii.eqb d BACKSLASH
                || Ascii.eqb d "n"%char || Ascii.eqb d "t"%char).
      * specialize (IH rest' (curPtr + 2) ltac:(lia)). lia.
      * destruct rest' as [|e rest'']; [cbn; lia|]. cbn [List.length] in *.
        destruct (isHexDigit d && isHexDigit e); [|lia].
        specialize (IH rest'' (curPtr + 3) ltac:(lia)). lia.
    + specialize (IH rest (curPtr + 1) ltac:(lia)). lia.
Qed.

Lemma lexLocStringTok_bounds (s : list ascii) (curPtr : Z) :
  curPtr <= lexLocStringTok s curPtr <= curPtr + Z.of_nat (List.length s).
Proof. now apply (lexLocStringTok_bounds_aux (List.length s)). Qed.

Lemma identifier_loop_bounds (identifierChars : string) (s : list ascii) :
  forall curPtr,
    curPtr <= identifier_loop identifierChars s curPtr
           <= curPtr + Z.of_nat (List.length s).
Proof.
  induction s as [|c rest IH]; intros curPtr; cbn [identifier_loop].
  - cbn; lia.
  - cbn [List.length].
    destruct (Ascii.eqb c NUL); [lia|].
    destruct (isIdentifierChar identifierChars (hd NUL rest)); [|lia].
    specialize (IH (curPtr + 1)). lia.
Qed.

Lemma chars_from_length (memory : list MemoryBuffer) (p : Z) (B : MemoryBuffer) :
  find (fun B => inBuffer B p) memory = Some B ->
  exists s,
    chars_from memory p = Some s /\
    p + Z.of_nat (List.length s) = getBufferEnd B.
Proof.
  intros Hfind. unfold chars_from. rewrite Hfind.
  eexists. split; [reflexivity|].
  apply find_some in Hfind as [_ Hin].
  unfold inBuffer in Hin. apply andb_prop in Hin as [Hlo Hhi].
  apply Z.leb_le in Hlo, Hhi. unfold getBufferEnd in *.
  rewrite length_skipn. lia.
Qed.

(** The range of the token at a valid location that points into a buffer
    starts at the location and ends between the location and the end of
    that buffer: the scan never ends past the terminating NUL. *)
Theorem convertTokenLocToRange_within_buffer
    (memory : list MemoryBuffer) (loc : SMLoc) (identifierChars : string)
    (B : MemoryBuffer) :
  SMLoc_isValid loc = true ->
  find (fun B => inBuffer B (getPointer loc)) memory = Some B ->
  exists e,
    convertTokenLocToRange memory loc identifierChars
      = Ret (mkSMRange loc (getFromPointer e)) /\
    getPointer loc <= e <= getBufferEnd B.
Proof.
  intros Hvalid Hfind.
  destruct (chars_from_length memory (getPointer loc) B Hfind)
    as (s & Hs & Hend).
  unfold convertTokenLocToRange. rewrite Hvalid, Hs. cbn [negb].
  eexists. split; [reflexivity|].
  destruct (Ascii.eqb (hd NUL s) DQUOTE) eqn:Hq.
  - destruct s as [|c rest]; [discriminate Hq|].
    cbn [tl List.length] in *.
    pose proof (lexLocStringTok_bounds rest (getPointer loc + 1)). lia.
  - pose proof (identifier_loop_bounds identifierChars s (getPointer loc)).
    lia.
Qed.

Lemma identifier_loop_cons (identifierChars : string) (c : ascii)
    (rest : list ascii) (curPtr : Z) :
  c <> NUL ->
  identifier_loop identifierChars (c :: rest) curPtr
  = if isIdentifierChar identifierChars (hd NUL rest)
    then identifier_loop identifierChars rest (curPtr + 1)
    else curPtr + 1.
Proof.
  intros Hc. apply Ascii.eqb_neq in Hc.
  cbn [identifier_loop]. now rewrite Hc.
Qed.

Lemma identifier_loop_run (identifierChars : string) (w : list ascii) :
  forall (c0 : ascii) (rest : list ascii) (curPtr : Z),
    c0 <> NUL ->
    Forall (fun c => isIdentifierChar identifierChars c = true /\ c <> NUL) w ->
    isIdentifierChar identifierChars (hd NUL rest) = false \/ hd NUL rest = NUL ->
    identifier_loop identifierChars (c0 :: w ++ rest) curPtr
    = curPtr + 1 + Z.of_nat (List.length w).
Proof.
  induction w as [|c w IH]; intros c0 rest curPtr Hc0 Hw Hrest;
    rewrite identifier_loop_cons by assumption; cbn [app List.length].
  - destruct Hrest as [Hrest|Hrest].
    + rewrite Hrest. cbn. lia.
    + destruct (isIdentifierChar identifierChars (hd NUL rest)); [|cbn; lia].
      destruct rest as [|r rest']; cbn [identifier_loop]; [cbn; lia|].
      cbn [hd] in Hrest. subst r. rewrite Ascii.eqb_refl. cbn. lia.
  - inversion Hw as [|? ? [Hc Hcn] Hw']; subst.
    cbn [hd]. rewrite Hc.
    rewrite (IH c rest (curPtr + 1) Hcn Hw' Hrest). lia.
Qed.

(** The token at a location whose character is neither NUL nor a double
    quote runs over that character, whatever it is, and all the
    identifier characters that follow it, up to the first character that
    is not one (or the NUL). *)
Theorem convertTokenLocToRange_identifier_extent
    (memory : list MemoryBuffer) (loc : SMLoc) (identifierChars : string)
    (c0 : ascii) (w rest : list ascii) :
  SMLoc_isValid loc = true ->
  chars_from memory (getPointer loc) = Some (c0 :: w ++ rest) ->
  c0 <> NUL -> c0 <> DQUOTE ->
  Forall (fun c => isIdentifierChar identifierChars c = true /\ c <> NUL) w ->
  isIdentifierChar identifierChars (hd NUL rest) = false \/ hd NUL rest = NUL ->
  convertTokenLocToRange memory loc identifierChars
  = Ret (mkSMRange loc
           (getFromPointer (getPointer loc + 1 + Z.of_nat (List.length w)))).
Proof.
  intros Hvalid Hs Hc0 Hq Hw Hrest.
  unfold convertTokenLocToRange. rewrite Hvalid, Hs. cbn [negb hd].
  apply Ascii.eqb_neq in Hq. rewrite Hq.
  now rewrite identifier_loop_run.
Qed.

(** After a well-formed string body, [lexLocStringTok] ends just after
    the terminal character that follows it, or on the NUL if the buffer
    ends there. *)
Lemma lexLocStringTok_body (body : list ascii) :
  string_body body ->
  forall (rest : list ascii) (curPtr : Z),
    hd NUL rest = NUL \/ string_terminal (hd NUL rest) = true ->
    lexLocStringTok (body ++ rest) curPtr
    = curPtr + Z.of_nat (List.length body)
      + (if Ascii.eqb (hd NUL rest) NUL then 0 else 1).
Proof.
  induction 1 as [|c body Hnul Hterm Hbs Hbody IH
                  |d body Hd Hbody IH
                  |d e body Hd He Hbody IH];
    intros rest curPtr Hrest.
  - cbn [app List.length]. destruct rest as [|t rest'].
    + cbn. lia.
    + cbn [lexLocStringTok hd] in *.
      destruct (Ascii.eqb t NUL) eqn:Ht; [lia|].
      rewrite contains_char_terminal.
      destruct Hrest as [->|Hterm]; [discriminate Ht|].
      rewrite Hterm. lia.
  - cbn [app lexLocStringTok List.length].
    apply Ascii.eqb_neq in Hnul, Hbs. rewrite Hnul, Hbs.
    rewrite contains_char_terminal, Hterm.
    rewrite (IH rest (curPtr + 1) Hrest). lia.
  - cbn [app lexLocStringTok List.length].
    change (Ascii.eqb BACKSLASH NUL) with false.
    rewrite contains_char_terminal.
    change (string_terminal BACKSLASH) with false.
    rewrite Ascii.eqb_refl.
    unfold simple_escape in Hd. rewrite Hd.
    rewrite (IH rest (curPtr + 2) Hrest). lia.
  - cbn [app lexLocStringTok List.length].
    change (Ascii.eqb BACKSLASH NUL) with false.
    rewrite contains_char_terminal.
    change (string_terminal BACKSLASH) with false.
    rewrite Ascii.eqb_refl.
    pose proof (isHexDigit_not_escape d Hd) as Hesc.
    unfold simple_escape in Hesc. rewrite Hesc, Hd, He. cbn [andb].
    rewrite (IH rest (curPtr + 3) Hrest). lia.
Qed.

(** The token at a double quote is the string: past the opening quote it
    runs over a well-formed body (plain characters and escapes) and over
    the terminal character after it, the closing quote or a line break;
    when the buffer ends first, it ends on the NUL. *)
Theorem convertTokenLocToRange_string_extent
    (memory : list MemoryBuffer) (loc : SMLoc) (identifierChars : string)
    (body rest : list ascii) :
  SMLoc_isValid loc = true ->
  chars_from memory (getPointer loc) = Some (DQUOTE :: body ++ rest) ->
  string_body body ->
  hd NUL rest = NUL \/ string_terminal (hd NUL rest) = true ->
  convertTokenLocToRange memory loc identifierChars
  = Ret (mkSMRange loc
           (getFromPointer
              (getPointer loc + 1 + Z.of_nat (List.length body)
               + (if Ascii.eqb (hd NUL rest) NUL then 0 else 1)))).
Proof.
  intros Hvalid Hs Hbody Hrest.
  unfold convertTokenLocToRange. rewrite Hvalid, Hs. cbn [negb hd tl].
  rewrite Ascii.eqb_refl.
  now rewrite (lexLocStringTok_body body Hbody rest _ Hrest).
Qed.

(** The token range at a location whose character is not NUL contains the
    location; at a NUL the range is empty and contains no location. *)
Theorem convertTokenLocToRange_contains_loc
    (memory : list MemoryBuffer) (loc : SMLoc) (identifierChars : string)
    (s : list ascii) :
  SMLoc_isValid loc = true ->
  chars_from memory (getPointer loc) = Some s ->
  exists r,
    convertTokenLocToRange memory loc identifierChars = Ret r /\
    (hd NUL s <> NUL -> contains r loc = true) /\
    (hd NUL s = NUL -> forall loc', contains r loc' = false).
Proof.
  intros Hvalid Hs.
  unfold convertTokenLocToRange. rewrite Hvalid, Hs. cbn [negb].
  eexists. split; [reflexivity|].
  unfold contains. cbn [Start End getPointer].
  split.
  - intros Hc. rewrite Z.leb_refl. cbn [andb]. apply Z.ltb_lt.
    destruct (Ascii.eqb (hd NUL s) DQUOTE) eqn:Hq.
    + pose proof (lexLocStringTok_bounds (tl s) (getPointer loc + 1)). lia.
    + destruct s as [|c rest]; [now elim Hc|]. cbn [hd] in *.
      cbn [identifier_loop].
      apply Ascii.eqb_neq in Hc. rewrite Hc.
      destruct (isIdentifierChar identifierChars (hd NUL rest)); [|lia].
      pose proof (identifier_loop_bounds identifierChars rest
                    (getPointer loc + 1)). lia.
  - intros Hc loc'. rewrite Hc. change (Ascii.eqb NUL DQUOTE) with false.
    assert (identifier_loop identifierChars s (getPointer loc)
            = getPointer loc) as ->.
    { destruct s as [|c rest]; [reflexivity|]. cbn [hd] in Hc. subst c.
      reflexivity. }
    destruct (Z.leb_spec (getPointer loc) (getPointer loc')); cbn [andb];
      [|reflexivity].
    apply Z.ltb_ge. assumption.
Qed.

Definition main_memory : list MemoryBuffer :=
  [mkMemoryBuffer "/src/main.td" 1000 main_text].

Lemma convertTokenLocToRange_within_buffer_witness :
  exists e,
    convertTokenLocToRange main_memory (getFromPointer 1008) ""
      = Ret (mkSMRange (getFromPointer 1008) (getFromPointer e)) /\
    1008 <= e <= getBufferEnd (mkMemoryBuffer "/src/main.td" 1000 main_text).
Proof.
  apply (convertTokenLocToRange_within_buffer main_memory
           (getFromPointer 1008) ""
           (mkMemoryBuffer "/src/main.td" 1000 main_text));
    reflexivity.
Defined.

Lemma convertTokenLocToRange_identifier_extent_witness :
  convertTokenLocToRange main_memory (getFromPointer 1000) ""
  = Ret (mkSMRange (getFromPointer 1000)
           (getFromPointer (1000 + 1 + Z.of_nat (List.length (chars "nclude"))))).
Proof.
  apply (convertTokenLocToRange_identifier_extent main_memory
           (getFromPointer 1000) "" "i"%char (chars "nclude")
           (skipn 7 main_text)).
  - reflexivity.
  - reflexivity.
  - discriminate.
  - discriminate.
  - repeat constructor; discriminate.
  - left. reflexivity.
Defined.

Lemma convertTokenLocToRange_string_extent_witness :
  convertTokenLocToRange main_memory (getFromPointer 1008) ""
  = Ret (mkSMRange (getFromPointer 1008)
           (getFromPointer
              (1008 + 1 + Z.of_nat (List.length (chars "a.h"))
               + (if Ascii.eqb (hd NUL (skipn 12 main_text)) NUL
                  then 0 else 1)))).
Proof.
  apply (convertTokenLocToRange_string_extent main_memory
           (getFromPointer 1008) "" (chars "a.h") (skipn 12 main_text)).
  - reflexivity.
  - reflexivity.
  - repeat (apply body_plain; [discriminate|reflexivity|discriminate|]).
    apply body_nil.
  - right. reflexivity.
Defined.

Lemma convertTokenLocToRange_contains_loc_witness :
  exists r,
    convertTokenLocToRange main_memory (getFromPointer 1000) "" = Ret r /\
    (hd NUL main_text <> NUL -> contains r (getFromPointer 1000) = true) /\
    (hd NUL main_text = NUL -> forall loc', contains r loc' = false).
Proof.
  apply (convertTokenLocToRange_contains_loc main_memory
           (getFromPointer 1000) "" main_text); reflexivity.
Defined.

Definition example_step :=
  gather_step string SMRange (fun path => path) example_is_absolute
    example_parent_path example_fromFile (fun _ r => r).

Lemma gatherIncludeFiles_appends_witness :
  (exists added,
     [mkSourceMgrInclude string SMRange "/src/a.h"
        (mkSMRange (getFromPointer 1008) (getFromPointer 1013));
      mkSourceMgrInclude string SMRange "/src/c.h"
        (mkSMRange (getFromPointer 1038) (getFromPointer 1043))]
     = [] ++ added /\
     (List.length added <= getNumBuffers example_sourceMgr - 1)%nat /\
     forall others,
       example_gather example_sourceMgr others = Ret (others ++ added)) /\
  example_gather [] [] = Ret [].
Proof.
  split.
  - apply (proj1 (gatherIncludeFiles_appends string SMRange
                    (fun path => path) example_is_absolute
                    example_parent_path example_fromFile (fun _ r => r)
                    example_sourceMgr [] _)).
    vm_compute. reflexivity.
  - apply (proj2 (gatherIncludeFiles_appends string SMRange
                    (fun path => path) example_is_absolute
                    example_parent_path example_fromFile (fun _ r => r)
                    [] [] [])).
    cbn. lia.
Defined.

Lemma gather_step_added_include_witness :
  exists info main path m,
    getBufferInfo example_sourceMgr (1 + 1) = Ret info /\
    SMLoc_isValid (IncludeLoc info) = true /\
    FindBufferContainingLoc example_sourceMgr (IncludeLoc info)
      = getMainFileID example_sourceMgr /\
    getMemoryBuffer example_sourceMgr (getMainFileID example_sourceMgr)
      = Ret main /\
    includePath (fun path => path) example_is_absolute example_parent_path
      example_sourceMgr (IncludeLoc info) (Buffer info) = Ret path /\
    example_fromFile path = Success "/src/a.h" /\
    mkSMRange (getFromPointer 1008) (getFromPointer 1013) =
      mkSMRange (getFromPointer (getBufferStart main + Z.of_nat m))
                (IncludeLoc info) /\
    nth m (getBuffer main) NUL = DQUOTE /\
    getBufferStart main + Z.of_nat m + 3 <= getPointer (IncludeLoc info) /\
    (forall j,
        getBufferStart main + Z.of_nat m < getBufferStart main + Z.of_nat j
          <= getPointer (IncludeLoc info) - 3 ->
        nth j (getBuffer main) NUL <> DQUOTE).
Proof.
  apply (gather_step_added_include string SMRange (fun path => path)
           example_is_absolute example_parent_path example_fromFile
           (fun _ r => r) example_sourceMgr 1 []
           (mkSourceMgrInclude string SMRange "/src/a.h"
              (mkSMRange (getFromPointer 1008) (getFromPointer 1013)))).
  vm_compute. reflexivity.
Defined.

(** *** Documentation comments *)

(** A [StringRef]: the characters it refers to. *)
Definition StringRef := list ascii.

Definition NEWLINE : ascii := ascii_of_nat 10.
Definition SLASH : ascii := "/"%char.

(** [find_last_of(c)]: the last position of [c], none for [npos]. *)
Fixpoint find_last_of (s : StringRef) (c : ascii) : option nat :=
  match s with
  | [] => None
  | x :: rest =>
      match find_last_of rest c with
      | Some i => Some (S i)
      | None => if Ascii.eqb x c then Some 0%nat else None
      end
  end.

(** The characters [trim()] removes by default: space, tab, line feed,
    vertical tab, form feed, carriage return. *)
Definition isSpace (c : ascii) : bool :=
  Ascii.eqb c " "%char || between 9 13 c.

Fixpoint ltrim_if (f : ascii -> bool) (s : StringRef) : StringRef :=
  match s with
  | [] => []
  | c :: rest => if f c then ltrim_if f rest else s
  end.

Definition rtrim_if (f : ascii -> bool) (s : StringRef) : StringRef :=
  rev (ltrim_if f (rev s)).

(** [trim()] is [ltrim()] and then [rtrim()]. *)
Definition trim (s : StringRef) : StringRef :=
  rtrim_if isSpace (ltrim_if isSpace s).

(** [ltrim(c)]. *)
Definition ltrim_char (s : StringRef) (c : ascii) : StringRef :=
  ltrim_if (Ascii.eqb c) s.

Fixpoint starts_with (s prefix : StringRef) : bool :=
  match prefix, s with
  | [], _ => true
  | p :: prefix', c :: s' => Ascii.eqb c p && starts_with s' prefix'
  | _ :: _, [] => false
  end.

(** [llvm::join(items, separator)]. *)
Fixpoint join (items : list StringRef) (separator : StringRef) : StringRef :=
  match items with
  | [] => []
  | [item] => item
  | item :: rest => item ++ separator ++ join rest separator
  end.

(** The lambda [popLastLine]: the last line, trimmed, and the buffer that
    is left; none when the buffer has no line break. *)
Definition popLastLine (buffer : StringRef) : option (StringRef * StringRef) :=
  match find_last_of buffer NEWLINE with
  | None => None
  | Some newlineOffset =>
      let lastLine := trim (skipn newlineOffset buffer) in
      Some (lastLine, firstn newlineOffset buffer)
  end.

(** The loop that collects the comment lines, in the order they are
    pushed.  Each turn shortens the buffer, so [fuel] turns are enough
    when [fuel] is the length of the buffer (see
    [commentLines_loop_fuel]). *)
Fixpoint commentLines_loop (fuel : nat) (buffer : StringRef) : list StringRef :=
  match fuel with
  | O => []
  | S fuel' =>
      match popLastLine buffer with
      | None => []
      | Some (line, buffer') =>
          if negb (starts_with line [SLASH; SLASH]) then []
          else ltrim_char line SLASH :: commentLines_loop fuel' buffer'
      end
  end.

(** [extractSourceDocComment(sourceMgr, loc)]. *)
Definition extractSourceDocComment (sourceMgr : SourceMgr) (loc : SMLoc)
  : outcome (option StringRef) :=
  if negb (SMLoc_isValid loc) then Ret None
  else
    let bufferId := FindBufferContainingLoc sourceMgr loc in
    if (bufferId =? 0)%nat then Ret None
    else
      B <- getMemoryBuffer sourceMgr bufferId ;;
      let bufferStart := getBufferStart B in
      let buffer :=
        firstn (Z.to_nat (getPointer loc - bufferStart)) (getBuffer B) in
      match popLastLine buffer with
      | None => Ret None
      | Some (_, buffer) =>
          let commentLines := commentLines_loop (List.length buffer) buffer in
          match commentLines with
          | [] => Ret None
          | _ => Ret (Some (join (rev commentLines) [NEWLINE]))
          end
      end.

(** The text before a location: what [extractSourceDocComment] looks at. *)
Definition text_before (sourceMgr : SourceMgr) (loc : SMLoc)
    (text : StringRef) : Prop :=
  SMLoc_isValid loc = true /\
  exists B,
    FindBufferContainingLoc sourceMgr loc <> 0%nat /\
    getMemoryBuffer sourceMgr (FindBufferContainingLoc sourceMgr loc) = Ret B /\
    firstn (Z.to_nat (getPointer loc - getBufferStart B)) (getBuffer B) = text.

(** [pre] followed by the lines [lines], each after a line break. *)
Fixpoint with_lines (pre : StringRef) (lines : list StringRef) : StringRef :=
  match lines with
  | [] => pre
  | line :: rest => with_lines (pre ++ NEWLINE :: line) rest
  end.

Definition no_newline (s : StringRef) : Prop := ~ In NEWLINE s.

(** *** Properties of the extraction *)

Lemma find_last_of_none (s : StringRef) (c : ascii) :
  ~ In c s -> find_last_of s c = None.
Proof.
  induction s as [|x rest IH]; cbn; [reflexivity|].
  intros Hn. rewrite IH by tauto.
  destruct (Ascii.eqb_spec x c); [|reflexivity]. subst. tauto.
Qed.

Lemma find_last_of_app (buf line : StringRef) (c : ascii) :
  ~ In c line ->
  find_last_of (buf ++ c :: line) c = Some (List.length buf).
Proof.
  intros Hn. induction buf as [|x buf IH]; cbn [app find_last_of List.length].
  - rewrite find_last_of_none by assumption. now rewrite Ascii.eqb_refl.
  - now rewrite IH.
Qed.

Lemma find_last_of_lt (s : StringRef) (c : ascii) (i : nat) :
  find_last_of s c = Some i -> (i < List.length s)%nat.
Proof.
  revert i; induction s as [|x rest IH]; intros i; cbn; [discriminate|].
  destruct (find_last_of rest c) as [j|].
  - intros H; inversion H; subst. specialize (IH j eq_refl). lia.
  - destruct (Ascii.eqb x c); [|discriminate].
    intros H; inversion H. lia.
Qed.

Lemma firstn_app_length {A : Type} (l1 l2 : list A) :
  firstn (List.length l1) (l1 ++ l2) = l1.
Proof. induction l1; cbn; [now destruct l2|now f_equal]. Qed.

Lemma skipn_app_length {A : Type} (l1 l2 : list A) :
  skipn (List.length l1) (l1 ++ l2) = l2.
Proof. induction l1; cbn; auto. Qed.

(** Popping the last line undoes appending a line: after [buf], a line
    break and a line without line break, [popLastLine] gives the line,
    trimmed, and [buf]. *)
Lemma popLastLine_app (buf line : StringRef) :
  no_newline line ->
  popLastLine (buf ++ NEWLINE :: line) = Some (trim line, buf).
Proof.
  intros Hn. unfold popLastLine.
  rewrite find_last_of_app by assumption.
  now rewrite skipn_app_length, firstn_app_length.
Qed.

Lemma popLastLine_none (buffer : StringRef) :
  no_newline buffer -> popLastLine buffer = None.
Proof.
  intros Hn. unfold popLastLine. now rewrite find_last_of_none.
Qed.

Lemma popLastLine_shorter (buffer line buffer' : StringRef) :
  popLastLine buffer = Some (line, buffer') ->
  (List.length buffer' < List.length buffer)%nat.
Proof.
  unfold popLastLine.
  destruct (find_last_of buffer NEWLINE) as [i|] eqn:E; [|discriminate].
  intros H; inversion H; subst. apply find_last_of_lt in E.
  rewrite length_firstn. lia.
Qed.

Lemma commentLines_loop_fuel_aux (n : nat) :
  forall buffer fuel1 fuel2,
    (List.length buffer <= n)%nat ->
    (List.length buffer <= fuel1)%nat ->
    (List.length buffer <= fuel2)%nat ->
    commentLines_loop fuel1 buffer = commentLines_loop fuel2 buffer.
Proof.
  induction n as [|n IH]; intros buffer fuel1 fuel2 Hn H1 H2.
  - destruct buffer; [|cbn in Hn; lia].
    destruct fuel1, fuel2; reflexivity.
  - destruct buffer as [|c rest] eqn:Hb.
    { destruct fuel1, fuel2; reflexivity. }
    rewrite <- Hb in *.
    assert (List.length buffer = S (List.length rest)) as Hl
      by (subst; reflexivity).
    destruct fuel1 as [|fuel1]; [lia|]. destruct fuel2 as [|fuel2]; [lia|].
    cbn [commentLines_loop].
    destruct (popLastLine buffer) as [[line buffer']|] eqn:Hpop;
      [|reflexivity].
    destruct (negb (starts_with line [SLASH; SLASH])); [reflexivity|].
    apply popLastLine_shorter in Hpop.
    f_equal. apply IH; lia.
Qed.

(** The fuel of the loop is never used up: any fuel from the length of
    the buffer on gives the same lines. *)
Lemma commentLines_loop_fuel (fuel : nat) (buffer : StringRef) :
  (List.length buffer <= fuel)%nat ->
  commentLines_loop fuel buffer
  = commentLines_loop (List.length buffer) buffer.
Proof.
  intros H. apply (commentLines_loop_fuel_aux (List.length buffer)); lia.
Qed.

Lemma with_lines_app (pre : StringRef) (lines : list StringRef) (line : StringRef) :
  with_lines pre (lines ++ [line]) = with_lines pre lines ++ NEWLINE :: line.
Proof.
  revert pre; induction lines as [|l lines IH]; intros pre; cbn; auto.
Qed.

(** The loop stops at [pre]: it has no line to pop, or its last line is
    not a comment. *)
Definition stops_at (pre : StringRef) : Prop :=
  match popLastLine pre with
  | None => True
  | Some (line, _) => starts_with line [SLASH; SLASH] = false
  end.

Definition comment_line (line : StringRef) : Prop :=
  no_newline line /\ starts_with (trim line) [SLASH; SLASH] = true.

Definition doc_of_line (line : StringRef) : StringRef :=
  ltrim_char (trim line) SLASH.

Lemma commentLines_loop_lines (pre : StringRef) (lines : list StringRef) :
  stops_at pre ->
  Forall comment_line lines ->
  forall fuel,
    (List.length (with_lines pre lines) <= fuel)%nat ->
    commentLines_loop fuel (with_lines pre lines)
    = rev (map doc_of_line lines).
Proof.
  intros Hstop.
  induction lines as [|line lines IH] using rev_ind; intros Hall fuel Hfuel.
  - cbn [with_lines map rev]. destruct fuel; [reflexivity|].
    cbn [commentLines_loop]. unfold stops_at in Hstop.
    destruct (popLastLine pre) as [[l b]|]; [|reflexivity].
    now rewrite Hstop.
  - apply Forall_app in Hall as [Hall Hline].
    inversion Hline as [|? ? [Hnl Hsw] _]; subst.
    rewrite with_lines_app in *. rewrite length_app in Hfuel.
    cbn [List.length] in Hfuel.
    destruct fuel as [|fuel]; [lia|].
    cbn [commentLines_loop]. rewrite popLastLine_app by assumption.
    rewrite Hsw. cbn [negb].
    rewrite map_app, rev_app_distr. cbn [map rev app].
    f_equal. apply IH; [assumption|lia].
Qed.

(** When the lines just above the line of the location are comment lines
    (each, once trimmed, starts with two slashes) and the line above them
    is not, or is the first line of the buffer, the documentation is
    those comment lines in their order, each trimmed and without its
    leading slashes, joined by line breaks. *)
Theorem extractSourceDocComment_comment_block
    (sourceMgr : SourceMgr) (loc : SMLoc)
    (pre cur : StringRef) (lines : list StringRef) :
  text_before sourceMgr loc (with_lines pre lines ++ NEWLINE :: cur) ->
  lines <> [] ->
  Forall comment_line lines ->
  no_newline cur ->
  stops_at pre ->
  extractSourceDocComment sourceMgr loc
  = Ret (Some (join (map doc_of_line lines) [NEWLINE])).
Proof.
  intros (Hvalid & B & Hid & HB & Htext) Hne Hall Hcur Hstop.
  unfold extractSourceDocComment. rewrite Hvalid. cbn [negb].
  apply Nat.eqb_neq in Hid. rewrite Hid, HB. cbn [bind].
  rewrite Htext, popLastLine_app by assumption.
  rewrite (commentLines_loop_lines pre lines Hstop Hall) by lia.
  rewrite rev_involutive.
  destruct (rev (map doc_of_line lines)) eqn:E; [|reflexivity].
  apply (f_equal (@List.length _)) in E.
  rewrite length_rev, length_map in E.
  destruct lines; [now elim Hne|discriminate E].
Qed.

(** No documentation is found for an invalid location, for a location
    outside every buffer, for a location on the first line of its buffer
    and for one on the second line: the first line of a buffer is never
    looked at, also when it is a comment. *)
Theorem extractSourceDocComment_none (sourceMgr : SourceMgr) (loc : SMLoc) :
  (SMLoc_isValid loc = false ->
   extractSourceDocComment sourceMgr loc = Ret None) /\
  (FindBufferContainingLoc sourceMgr loc = 0%nat ->
   extractSourceDocComment sourceMgr loc = Ret None) /\
  (forall text,
     text_before sourceMgr loc text -> no_newline text ->
     extractSourceDocComment sourceMgr loc = Ret None) /\
  (forall first cur,
     text_before sourceMgr loc (first ++ NEWLINE :: cur) ->
     no_newline first -> no_newline cur ->
     extractSourceDocComment sourceMgr loc = Ret None).
Proof.
  unfold extractSourceDocComment. repeat split.
  - intros ->. reflexivity.
  - intros ->. now destruct (negb (SMLoc_isValid loc)).
  - intros text (Hvalid & B & Hid & HB & Htext) Hn.
    rewrite Hvalid. cbn [negb].
    apply Nat.eqb_neq in Hid. rewrite Hid, HB. cbn [bind].
    now rewrite Htext, popLastLine_none.
  - intros first cur (Hvalid & B & Hid & HB & Htext) Hfirst Hcur.
    rewrite Hvalid. cbn [negb].
    apply Nat.eqb_neq in Hid. rewrite Hid, HB. cbn [bind].
    rewrite Htext, popLastLine_app by assumption.
    destruct (List.length first); cbn [commentLines_loop]; [reflexivity|].
    now rewrite popLastLine_none.
Qed.

Lemma ltrim_if_In (f : ascii -> bool) (s : StringRef) (x : ascii) :
  In x (ltrim_if f s) -> In x s.
Proof.
  induction s as [|c rest IH]; cbn [ltrim_if]; [auto|].
  destruct (f c); [|auto]. intros H. right. auto.
Qed.

Lemma rtrim_if_In (f : ascii -> bool) (s : StringRef) (x : ascii) :
  In x (rtrim_if f s) -> In x s.
Proof.
  unfold rtrim_if. intros H. apply in_rev in H. apply ltrim_if_In in H.
  now apply in_rev.
Qed.

Lemma ltrim_if_hd (f : ascii -> bool) (s : StringRef) (x : ascii)
    (rest : StringRef) :
  ltrim_if f s = x :: rest -> f x = false.
Proof.
  induction s as [|c s IH]; cbn [ltrim_if]; [discriminate|].
  destruct (f c) eqn:E; [exact IH|].
  intros H; inversion H; subst. exact E.
Qed.

Lemma find_last_of_skipn (s : StringRef) (c : ascii) (i : nat) :
  find_last_of s c = Some i ->
  exists rest, skipn i s = c :: rest /\ ~ In c rest.
Proof.
  revert i; induction s as [|x s IH]; intros i; cbn [find_last_of];
    [discriminate|].
  destruct (find_last_of s c) as [j|] eqn:E.
  - intros H; inversion H; subst. cbn [skipn]. now apply IH.
  - destruct (Ascii.eqb_spec x c) as [->|]; [|discriminate].
    intros H; inversion H; subst. cbn [skipn]. exists s. split; [reflexivity|].
    intros Hin. clear IH H.
    induction s as [|y s IHs]; [exact Hin|].
    cbn [find_last_of] in E.
    destruct (find_last_of s c); [discriminate|].
    destruct (Ascii.eqb_spec y c); [discriminate|].
    destruct Hin as [->|Hin]; [congruence|]. now apply IHs.
Qed.

Lemma popLastLine_no_newline (buffer line buffer' : StringRef) :
  popLastLine buffer = Some (line, buffer') -> no_newline line.
Proof.
  unfold popLastLine.
  destruct (find_last_of buffer NEWLINE) as [i|] eqn:E; [|discriminate].
  intros H; inversion H; subst; clear H.
  destruct (find_last_of_skipn _ _ _ E) as (rest & -> & Hrest).
  intros Hin. apply Hrest. unfold trim in Hin.
  apply rtrim_if_In in Hin. cbn [ltrim_if] in Hin.
  change (isSpace NEWLINE) with true in Hin. cbn iota in Hin.
  now apply ltrim_if_In in Hin.
Qed.

Lemma commentLines_loop_invariant (fuel : nat) :
  forall buffer,
    Forall (fun line => hd NUL line <> SLASH /\ no_newline line)
           (commentLines_loop fuel buffer).
Proof.
  induction fuel as [|fuel IH]; intros buffer; cbn [commentLines_loop];
    [constructor|].
  destruct (popLastLine buffer) as [[line buffer']|] eqn:Hpop;
    [|constructor].
  destruct (negb (starts_with line [SLASH; SLASH])); constructor; [|apply IH].
  split.
  - unfold ltrim_char.
    destruct (ltrim_if (Ascii.eqb SLASH) line) as [|x rest] eqn:E;
      [discriminate|].
    apply ltrim_if_hd in E. cbn [hd]. intros ->.
    now rewrite Ascii.eqb_refl in E.
  - intros Hin. apply ltrim_if_In in Hin.
    now apply (popLastLine_no_newline _ _ _ Hpop).
Qed.

(** Whatever the buffer holds, a documentation that is returned is made
    of one line or more, joined by line breaks; no line starts with a
    slash and no line has a line break in it. *)
Theorem extractSourceDocComment_lines
    (sourceMgr : SourceMgr) (loc : SMLoc) (doc : StringRef) :
  extractSourceDocComment sourceMgr loc = Ret (Some doc) ->
  exists lines,
    lines <> [] /\
    doc = join lines [NEWLINE] /\
    Forall (fun line => hd NUL line <> SLASH /\ no_newline line) lines.
Proof.
  unfold extractSourceDocComment.
  destruct (negb (SMLoc_isValid loc)); [discriminate|].
  destruct (FindBufferContainingLoc sourceMgr loc =? 0)%nat; [discriminate|].
  destruct (getMemoryBuffer sourceMgr _) as [B| | |]; cbn [bind];
    try discriminate.
  destruct (popLastLine _) as [[line buffer]|]; [|discriminate].
  pose proof (commentLines_loop_invariant (List.length buffer) buffer) as Hinv.
  destruct (commentLines_loop (List.length buffer) buffer) as [|l ls] eqn:E;
    [discriminate|].
  intros H; inversion H; subst; clear H.
  exists (rev (l :: ls)). repeat split.
  - intros Hnil. apply (f_equal (@List.length _)) in Hnil.
    rewrite length_rev in Hnil. discriminate Hnil.
  - apply Forall_rev. exact Hinv.
Qed.

(** *** A documented declaration *)

(** A buffer at address 5000: a first line, two comment lines, the second
    one indented, and the declaration [def foo]. *)
Definition doc_text : StringRef :=
  chars "// header" ++ [NEWLINE] ++ chars "/// Adds two." ++ [NEWLINE]
  ++ chars "  // See bar. " ++ [NEWLINE] ++ chars "def foo".

Definition doc_sourceMgr : SourceMgr :=
  [mkSrcBuffer (mkMemoryBuffer "/src/doc.td" 5000 doc_text) SMLoc_default].

Example extractSourceDocComment_example :
  extractSourceDocComment doc_sourceMgr (getFromPointer 5042)
  = Ret (Some (chars " Adds two." ++ [NEWLINE] ++ chars " See bar.")).
Proof. vm_compute. reflexivity. Qed.

Lemma extractSourceDocComment_comment_block_witness :
  extractSourceDocComment doc_sourceMgr (getFromPointer 5042)
  = Ret (Some (join (map doc_of_line
                       [chars "/// Adds two."; chars "  // See bar. "])
                    [NEWLINE])).
Proof.
  apply (extractSourceDocComment_comment_block doc_sourceMgr
           (getFromPointer 5042) (chars "// header") (chars "def")
           [chars "/// Adds two."; chars "  // See bar. "]).
  - split; [reflexivity|].
    exists (mkMemoryBuffer "/src/doc.td" 5000 doc_text).
    repeat split; discriminate.
  - discriminate.
  - repeat constructor; try reflexivity;
      intros Hin; cbn in Hin; repeat (destruct Hin as [Hin|Hin];
        [discriminate Hin|]); exact Hin.
  - intros Hin; cbn in Hin; repeat (destruct Hin as [Hin|Hin];
      [discriminate Hin|]); exact Hin.
  - exact I.
Defined.

Lemma extractSourceDocComment_none_witness :
  extractSourceDocComment doc_sourceMgr SMLoc_default = Ret None /\
  extractSourceDocComment doc_sourceMgr (getFromPointer 7) = Ret None /\
  extractSourceDocComment doc_sourceMgr (getFromPointer 5003) = Ret None /\
  extractSourceDocComment doc_sourceMgr (getFromPointer 5013) = Ret None.
Proof.
  split; [|split; [|split]].
  - apply (proj1 (extractSourceDocComment_none doc_sourceMgr SMLoc_default)).
    reflexivity.
  - apply (proj1 (proj2 (extractSourceDocComment_none doc_sourceMgr
                           (getFromPointer 7)))).
    reflexivity.
  - apply (proj1 (proj2 (proj2 (extractSourceDocComment_none doc_sourceMgr
                                  (getFromPointer 5003))))
             (chars "// ")).
    + split; [reflexivity|].
      exists (mkMemoryBuffer "/src/doc.td" 5000 doc_text).
      repeat split; discriminate.
    + intros Hin; cbn in Hin; repeat (destruct Hin as [Hin|Hin];
        [discriminate Hin|]); exact Hin.
  - apply (proj2 (proj2 (proj2 (extractSourceDocComment_none doc_sourceMgr
                                  (getFromPointer 5013))))
             (chars "// header") (chars "///")).
    + split; [reflexivity|].
      exists (mkMemoryBuffer "/src/doc.td" 5000 doc_text).
      repeat split; discriminate.
    + intros Hin; cbn in Hin; repeat (destruct Hin as [Hin|Hin];
        [discriminate Hin|]); exact Hin.
    + intros Hin; cbn in Hin; repeat (destruct Hin as [Hin|Hin];
        [discriminate Hin|]); exact Hin.
Defined.

Lemma extractSourceDocComment_lines_witness :
  exists lines,
    lines <> [] /\
    chars " Adds two." ++ [NEWLINE] ++ chars " See bar."
      = join lines [NEWLINE] /\
    Forall (fun line => hd NUL line <> SLASH /\ no_newline line) lines.
Proof.
  apply (extractSourceDocComment_lines doc_sourceMgr (getFromPointer 5042)).
  vm_compute. reflexivity.
Defined.

End SourceMgrUtils.
